(** * HTTP Observatory header analyzers: a shallow embedding

    Source: [httpobs/scanner/analyzer/headers.py].  Every analyzer is
    embedded as a Rocq function over the request bundle [reqs]; the Python
    built-ins the analyzers call ([str.split], [str.strip], [int], [repr],
    set and dict operations) are embedded first, in [Py].

    Modelling conventions.
    - A Python [str] is a [string] of code points below 256, which is what
      an HTTP header value decoded by [http.client] holds.
    - A Python [int] is a [Z].
    - A Python [set] of strings is a duplicate-free [list string]; only
      membership is ever observed, never the order.
    - A Python [dict] keyed by strings is a [gmap].
    - An exception is a value of [exn]; code that may raise returns
      [outcome].
    - The [scored_test] decorator only attaches scoring metadata to the
      dictionary an analyzer returns; the embedding is of the analyzer
      bodies. *)

From stdpp Require Import gmap strings list fin_maps.
From Stdlib Require Import ZArith Ascii Lia.

Local Open Scope Z_scope.

(** ** Python built-ins *)

Module Py.

Inductive exn := ValueError | IndexError | TypeError.

Inductive outcome (A : Type) :=
| Ok (a : A)
| Raise (e : exn).
Arguments Ok {A} a.
Arguments Raise {A} e.

Definition code (c : ascii) : N := N_of_ascii c.

(** [str.isspace] on one code point below 256. *)
Definition is_space (c : ascii) : bool :=
  let n := code c in
  ((9 <=? n) && (n <=? 13) || (28 <=? n) && (n <=? 32)
   || (n =? 133) || (n =? 160))%N.

Definition is_upper (c : ascii) : bool :=
  let n := code c in
  ((65 <=? n) && (n <=? 90)
   || (192 <=? n) && (n <=? 222) && negb (n =? 215))%N.

Definition lower_char (c : ascii) : ascii :=
  if is_upper c then ascii_of_N (code c + 32) else c.

Definition eqc (a b : ascii) : bool := Ascii.eqb a b.

Fixpoint len_nat (s : string) : nat :=
  match s with
  | EmptyString => O
  | String _ s' => S (len_nat s')
  end.

(** [len(s)] *)
Definition len (s : string) : Z := Z.of_nat (len_nat s).

(** [s.lower()] *)
Fixpoint lower (s : string) : string :=
  match s with
  | EmptyString => EmptyString
  | String c s' => String (lower_char c) (lower s')
  end.

(** [s.replace(c, '')] for a one-character [c]. *)
Fixpoint remove_char (c : ascii) (s : string) : string :=
  match s with
  | EmptyString => EmptyString
  | String a s' =>
      if eqc a c then remove_char c s' else String a (remove_char c s')
  end.

Fixpoint lstrip (s : string) : string :=
  match s with
  | EmptyString => EmptyString
  | String c s' => if is_space c then lstrip s' else s
  end.

Fixpoint rstrip (s : string) : string :=
  match s with
  | EmptyString => EmptyString
  | String c s' =>
      match rstrip s' with
      | EmptyString => if is_space c then EmptyString else String c EmptyString
      | r => String c r
      end
  end.

(** [s.strip()] *)
Definition strip (s : string) : string := rstrip (lstrip s).

Fixpoint all_space (s : string) : bool :=
  match s with
  | EmptyString => true
  | String c s' => is_space c && all_space s'
  end.

(** [s.isspace()]: at least one character and all of them whitespace. *)
Definition isspace (s : string) : bool :=
  match s with
  | EmptyString => false
  | _ => all_space s
  end.

(** [s.split(sep)] for a one-character separator. *)
Fixpoint split_on (sep : ascii) (s : string) : list string :=
  match s with
  | EmptyString => [EmptyString]
  | String c s' =>
      if eqc c sep then EmptyString :: split_on sep s'
      else match split_on sep s' with
           | w :: ws => String c w :: ws
           | [] => [String c EmptyString]
           end
  end.

(** [s.split()]: the maximal runs of non-whitespace characters. *)
Fixpoint split (s : string) : list string :=
  match s with
  | EmptyString => []
  | String c s' =>
      if is_space c then split s'
      else match s' with
           | EmptyString => [String c EmptyString]
           | String c' _ =>
               if is_space c' then String c EmptyString :: split s'
               else match split s' with
                    | w :: ws => String c w :: ws
                    | [] => [String c EmptyString]
                    end
           end
  end.

(** The first whitespace-delimited word of a string with no leading
    whitespace, and what follows it. *)
Fixpoint break_word (s : string) : string * string :=
  match s with
  | EmptyString => (EmptyString, EmptyString)
  | String c s' =>
      if is_space c then (EmptyString, s)
      else let '(w, r) := break_word s' in (String c w, r)
  end.

(** [s.split(maxsplit=1)] *)
Definition split_max1 (s : string) : list string :=
  match lstrip s with
  | EmptyString => []
  | t => let '(w, r) := break_word t in
         match lstrip r with
         | EmptyString => [w]
         | r' => [w; r']
         end
  end.

(** [s.startswith(p)] *)
Fixpoint startswith (s p : string) : bool :=
  match p, s with
  | EmptyString, _ => true
  | String a p', String b s' => eqc a b && startswith s' p'
  | String _ _, EmptyString => false
  end.

(** [sub in s] *)
Fixpoint contains (s sub : string) : bool :=
  startswith s sub
  || match s with
     | EmptyString => false
     | String _ s' => contains s' sub
     end.

Fixpoint drop (n : nat) (s : string) : string :=
  match n, s with
  | O, _ => s
  | S n', String _ s' => drop n' s'
  | S _, EmptyString => EmptyString
  end.

Fixpoint take (n : nat) (s : string) : string :=
  match n, s with
  | S n', String c s' => String c (take n' s')
  | _, _ => EmptyString
  end.

(** [s[a:b]] for literal bounds [0 <= a <= b]. *)
Definition slice (a b : nat) (s : string) : string := take (b - a) (drop a s).

(** [sep.join(l)] *)
Fixpoint join (sep : string) (l : list string) : string :=
  match l with
  | [] => EmptyString
  | [x] => x
  | x :: l' => x +:+ sep +:+ join sep l'
  end.

(** [s * n] *)
Fixpoint repeat_str (s : string) (n : nat) : string :=
  match n with
  | O => EmptyString
  | S n' => s +:+ repeat_str s n'
  end.

Definition digit (c : ascii) : option Z :=
  let n := code c in
  if ((48 <=? n) && (n <=? 57))%N then Some (Z.of_N n - 48) else None.

(** The digits of an [int] literal: one or more decimal digits, where a
    single underscore may separate two digits.  [acc] is the value read so
    far and [after_digit] tells whether the previous character was a
    digit. *)
Fixpoint digits (acc : Z) (after_digit : bool) (s : string) : option Z :=
  match s with
  | EmptyString => if after_digit then Some acc else None
  | String c s' =>
      match digit c with
      | Some d => digits (10 * acc + d) true s'
      | None =>
          if eqc c "_"%char && after_digit
          then match s' with
               | EmptyString => None
               | String c' _ =>
                   match digit c' with
                   | Some _ => digits acc false s'
                   | None => None
                   end
               end
          else None
      end
  end.

(** The whitespace [int] skips before and after a literal.  [int] reads
    an ASCII string as it is and skips the blanks of the C locale, codes 9
    to 13 and 32; in a string with a character above 126 it first turns
    the spaces of that range, codes 133 and 160, into blanks.  The
    separators of codes 28 to 31, which [str.strip] removes, are not
    skipped: [int] refuses them. *)
Definition is_int_space (c : ascii) : bool :=
  let n := code c in
  ((9 <=? n) && (n <=? 13) || (n =? 32) || (n =? 133) || (n =? 160))%N.

Fixpoint int_lstrip (s : string) : string :=
  match s with
  | EmptyString => EmptyString
  | String c s' => if is_int_space c then int_lstrip s' else s
  end.

Fixpoint int_rstrip (s : string) : string :=
  match s with
  | EmptyString => EmptyString
  | String c s' =>
      match int_rstrip s' with
      | EmptyString =>
          if is_int_space c then EmptyString else String c EmptyString
      | r => String c r
      end
  end.

(** [int(s)]: [None] stands for [ValueError]. *)
Definition int (s : string) : option Z :=
  match int_rstrip (int_lstrip s) with
  | String "+"%char t => digits 0 false t
  | String "-"%char t => Z.opp <$> digits 0 false t
  | t => digits 0 false t
  end.

(** *** Sets of strings as duplicate-free lists *)

Definition mem (x : string) (s : list string) : bool := bool_decide (x ∈ s).

(** [set(l)] *)
Definition set_of (l : list string) : list string := remove_dups l.

(** [s.union(t)] *)
Definition union (s t : list string) : list string := list_union s t.

(** [s.intersection(l)] for any iterable [l]. *)
Definition intersection (s l : list string) : list string :=
  filter (λ x, x ∈ l) s.

(** [s.remove(x)] when [x] is known to be in [s]. *)
Definition remove (x : string) (s : list string) : list string :=
  filter (λ y, y ≠ x) s.

(** [s == t] on sets. *)
Definition set_eq (s t : list string) : bool :=
  forallb (λ x, mem x t) s && forallb (λ x, mem x s) t.

(** Truth value of a container. *)
Definition truthy {A} (l : list A) : bool :=
  match l with [] => false | _ => true end.

(** *** Length of [repr] *)

Definition dquote : ascii := ascii_of_N 34.
Definition backslash : ascii := ascii_of_N 92.

(** Number of characters [repr] writes for one character of a string
    delimited by [quote]. *)
Definition repr_char_len (quote c : ascii) : Z :=
  let n := code c in
  if eqc c backslash || eqc c quote then 2
  else if ((n =? 9) || (n =? 10) || (n =? 13))%N then 2
  else if ((n <? 32) || (n =? 127)
           || (128 <=? n) && (n <=? 160) || (n =? 173))%N then 4
  else 1.

Fixpoint repr_body_len (quote : ascii) (s : string) : Z :=
  match s with
  | EmptyString => 0
  | String c s' => repr_char_len quote c + repr_body_len quote s'
  end.

(** [len(repr(s))]: double quotes are chosen when the string holds a
    single quote and no double quote. *)
Definition repr_len (s : string) : Z :=
  let q := if contains s "'" && negb (contains s (String dquote EmptyString))
           then dquote else "'"%char in
  2 + repr_body_len q s.

(** [len(repr(l))] of a list, from the lengths of its items' reprs. *)
Definition repr_seq_len (items : list Z) : Z :=
  match items with
  | [] => 2
  | _ => 2 + foldr Z.add 0 items + 2 * (Z.of_nat (length items) - 1)
  end.

End Py.

Import Py.

(** ** The request bundle *)

(** A [requests] response as the analyzers read it.  [headers] is a
    [CaseInsensitiveDict], which files every entry under its lower-cased
    name; [http_equiv] is the dictionary of [<meta http-equiv>] values. *)
Record Response := {
  headers : gmap string string;
  http_equiv : gmap string string;
  url : string;
  verified : bool;
}.

(** [name in response.headers] and [response.headers.get(name)] *)
Definition header (r : Response) (name : string) : option string :=
  headers r !! lower name.

(** A [http.cookiejar.Cookie].  The class has no [httponly] attribute:
    [httponly = None] says the attribute is not set on the object, and
    [_rest] lists the keys of the cookie's non-standard attributes. *)
Record Cookie := {
  name : string;
  domain : string;
  expires : option Z;
  path : string;
  port : option string;
  secure : bool;
  httponly : option bool;
  _rest : list string;
}.

(** [reqs]: [reqs['responses']['auto']], [reqs['responses']['https']] and
    the cookies of [reqs['session']], in iteration order. *)
Record Reqs := {
  responses_auto : Response;
  responses_https : option Response;
  session_cookies : list Cookie;
}.

(** The dictionary most analyzers return. *)
Record output (D : Type) := Output {
  data : option D;
  expectation : string;
  pass : bool;
  result : string;
}.
Arguments Output {D}.
Arguments data {D}.
Arguments expectation {D}.
Arguments pass {D}.
Arguments result {D}.

(** A record of the preload lists, as far as the analyzers read it. *)
Record PreloadRecord := {
  includeSubDomains : bool;
  includeSubDomainsForPinning : bool;
}.

(** ** Content-Security-Policy *)

(** A parsed policy: directive name to source set. *)
Abbreviation policy := (gmap string (list string)).

Definition CR : ascii := ascii_of_N 13.
Definition LF : ascii := ascii_of_N 10.

(** One turn of the loop of [__parse_csp] on [entry]. *)
Definition parse_entry (csp : policy) (entry : list string) : outcome policy :=
  match entry with
  | [] => Raise IndexError
  | directive :: _ =>
      let values :=
        if (1 <? Z.of_nat (length entry))
        then set_of (lower <$> split (List.last entry EmptyString))
        else ["'none'"] in
      if bool_decide (is_Some (csp !! directive)) then Raise ValueError
      else Ok (<[directive := values]> csp)
  end.

Fixpoint parse_entries (csp : policy) (entries : list (list string))
  : outcome policy :=
  match entries with
  | [] => Ok csp
  | entry :: rest =>
      match parse_entry csp entry with
      | Ok csp' => parse_entries csp' rest
      | Raise e => Raise e
      end
  end.

(** The cleaned string of [__parse_csp]. *)
Definition clean (csp_string : string) : string :=
  strip (remove_char LF (remove_char CR csp_string)).

(** The list the loop of [__parse_csp] runs over. *)
Definition entries_of (cleaned : string) : list (list string) :=
  (λ directive, split_max1 (strip directive))
    <$> filter (λ directive, directive ≠ EmptyString) (split_on ";" cleaned).

Definition __parse_csp (csp_string : string) : outcome policy :=
  let csp_string := clean csp_string in
  if (len csp_string <? 6) || isspace csp_string then Raise ValueError
  else parse_entries ∅ (entries_of csp_string).

Definition dangerously_broad : list string :=
  ["http:"; "https:"; "*"; "http://*"; "http://*.*"; "https://*"; "https://*.*"].

Definition unsafe_inline : list string := ["'unsafe-inline'"; "data:"].

Definition hash_or_nonce (source : string) : bool :=
  startswith source "'sha256-" || startswith source "'sha384-"
  || startswith source "'sha512-" || startswith source "'nonce-".

(** Truth value of [csp.get(k)] and of [headers[k]]. *)
Definition truthy_opt {A} (o : option (list A)) : bool :=
  match o with Some l => truthy l | None => false end.

Definition truthy_policy (o : option policy) : bool :=
  match o with Some p => bool_decide (p ≠ ∅) | None => false end.

(** What a local variable such as [script_src] is bound to: the very set
    object stored in [csp] under a directive, or a set of its own. *)
Inductive src :=
| Entry (directive : string)
| Fresh (values : list string).

(** [csp.get(directive) or csp.get('default-src') or {'*'}] *)
Definition get_src (csp : policy) (directive : string) : src :=
  if truthy_opt (csp !! directive) then Entry directive
  else if truthy_opt (csp !! "default-src") then Entry "default-src"
  else Fresh ["*"].

Definition deref (csp : policy) (s : src) : list string :=
  match s with
  | Entry directive => default [] (csp !! directive)
  | Fresh values => values
  end.

(** [script_src.remove(x)]: the set object is changed in place, and with it
    every name bound to the same object. *)
Definition remove_in_place (x : string) (csp : policy) (s : src)
  : policy * src :=
  match s with
  | Entry directive => (alter (remove x) directive csp, s)
  | Fresh values => (csp, Fresh (remove x values))
  end.

(** The union of all the values of [csp]. *)
Definition all_values (csp : policy) : list string :=
  map_fold (λ _ values acc, union values acc) [] csp.

(** [len(str(csp))] once every set is converted to a list. *)
Definition str_len (csp : policy) : Z :=
  repr_seq_len
    ((λ kv, repr_len kv.1 + 2 + repr_seq_len (repr_len <$> kv.2))
       <$> map_to_list csp).

(** The merge of the header policy and the http-equiv policy. *)
Definition merge (http equiv : option policy) : option policy :=
  if truthy_policy http && truthy_policy equiv then
    let h := default ∅ http in
    let e := default ∅ equiv in
    Some (set_to_map
            (λ k, (k, union (default [] (h !! k)) (default [] (e !! k))))
            (dom h ∪ dom e : gset string))
  else if truthy_policy http then http else equiv.

(** [__parse_csp(d.get(k)) if k in d else None] *)
Definition parse_if_present (value : option string)   : outcome (option policy) :=
  match value with
  | None => Ok None
  | Some csp_string =>
      match __parse_csp csp_string with
      | Ok csp => Ok (Some csp)
      | Raise e => Raise e
      end
  end.

Definition CSP : string := "Content-Security-Policy".

(** The [headers] dictionary built under [try]. *)
Definition parse_headers (response : Response)
    : outcome (option policy * option policy) :=
  match parse_if_present (header response CSP) with
  | Raise e => Raise e
  | Ok http =>
      match parse_if_present (http_equiv response !! CSP) with
      | Raise e => Raise e
      | Ok equiv => Ok (http, equiv)
      end
  end.

(** The dictionaries of [strict_transport_security] and
    [public_key_pinning] have keys of their own. *)
Module Hsts.
Record output := Output {
  data : option string;
  expectation : string;
  includeSubDomains : bool;
  max_age : option Z;
  pass : bool;
  preload : bool;
  preloaded : bool;
  result : string;
}.
Definition set_data v o :=
  Output v (expectation o) (includeSubDomains o) (max_age o) (pass o)
    (preload o) (preloaded o) (result o).
Definition set_includeSubDomains v o :=
  Output (data o) (expectation o) v (max_age o) (pass o) (preload o)
    (preloaded o) (result o).
Definition set_max_age v o :=
  Output (data o) (expectation o) (includeSubDomains o) v (pass o)
    (preload o) (preloaded o) (result o).
Definition set_pass v o :=
  Output (data o) (expectation o) (includeSubDomains o) (max_age o) v
    (preload o) (preloaded o) (result o).
Definition set_preload v o :=
  Output (data o) (expectation o) (includeSubDomains o) (max_age o) (pass o)
    v (preloaded o) (result o).
Definition set_preloaded v o :=
  Output (data o) (expectation o) (includeSubDomains o) (max_age o) (pass o)
    (preload o) v (result o).
Definition set_result v o :=
  Output (data o) (expectation o) (includeSubDomains o) (max_age o) (pass o)
    (preload o) (preloaded o) v.
End Hsts.

Module Hpkp.
Record output := Output {
  data : option string;
  expectation : string;
  includeSubDomains : bool;
  max_age : option Z;
  numPins : option Z;
  pass : bool;
  preloaded : bool;
  result : string;
}.
Definition set_data v o :=
  Output v (expectation o) (includeSubDomains o) (max_age o) (numPins o)
    (pass o) (preloaded o) (result o).
Definition set_includeSubDomains v o :=
  Output (data o) (expectation o) v (max_age o) (numPins o) (pass o)
    (preloaded o) (result o).
Definition set_max_age v o :=
  Output (data o) (expectation o) (includeSubDomains o) v (numPins o)
    (pass o) (preloaded o) (result o).
Definition set_numPins v o :=
  Output (data o) (expectation o) (includeSubDomains o) (max_age o) v
    (pass o) (preloaded o) (result o).
Definition set_pass v o :=
  Output (data o) (expectation o) (includeSubDomains o) (max_age o)
    (numPins o) v (preloaded o) (result o).
Definition set_preloaded v o :=
  Output (data o) (expectation o) (includeSubDomains o) (max_age o)
    (numPins o) (pass o) v (result o).
Definition set_result v o :=
  Output (data o) (expectation o) (includeSubDomains o) (max_age o)
    (numPins o) (pass o) (preloaded o) v.
End Hpkp.

(** The values [cookies] files in its jar under a cookie's name. *)
Module Jar.
Record entry := Entry {
  domain : string;
  expires : option Z;
  httponly : option bool;
  path : string;
  port : option string;
  secure : bool;
}.
End Jar.

(** Truth value of an [int] or [None]. *)
Definition truthy_int (o : option Z) : bool :=
  match o with Some n => negb (n =? 0) | None => false end.

(** Number of decimal digits of [n >= 0]; [fuel] bounds the divisions. *)
Fixpoint dec_digits (fuel : nat) (n : Z) : Z :=
  match fuel with
  | O => 1
  | S fuel' => if n <? 10 then 1 else 1 + dec_digits fuel' (n / 10)
  end.

(** [len(repr(n))] for an [int]. *)
Definition int_repr_len (n : Z) : Z :=
  if n <? 0 then 1 + dec_digits (Z.to_nat (Z.log2 (- n))) (- n)
  else dec_digits (Z.to_nat (Z.log2 n)) n.

Definition opt_repr_len {A} (f : A → Z) (o : option A) : Z :=
  match o with Some a => f a | None => 4 end.

Definition bool_repr_len (b : bool) : Z := if b then 4 else 5.

(** [len(repr(d))] for the dictionary filed for one cookie, whose keys are
    domain, expires, httponly, max-age, path, port and secure; the keys,
    colons, commas and braces take 84 characters and the value of max-age
    is always [None]. *)
Definition entry_repr_len (e : Jar.entry) : Z :=
  84 + repr_len (Jar.domain e) + opt_repr_len int_repr_len (Jar.expires e)
  + opt_repr_len bool_repr_len (Jar.httponly e) + 4 + repr_len (Jar.path e)
  + opt_repr_len repr_len (Jar.port e) + bool_repr_len (Jar.secure e).

(** [len(str(jar))] *)
Definition jar_str_len (jar : gmap string Jar.entry) : Z :=
  repr_seq_len
    ((λ kv, repr_len kv.1 + 2 + entry_repr_len kv.2) <$> map_to_list jar).

Definition set_session_cookies (jar : list Cookie) (reqs : Reqs) : Reqs :=
  {| responses_auto := responses_auto reqs;
     responses_https := responses_https reqs;
     session_cookies := jar |}.

Definition set_httponly (v : bool) (c : Cookie) : Cookie :=
  {| name := name c; domain := domain c; expires := expires c;
     path := path c; port := port c; secure := secure c;
     httponly := Some v; _rest := _rest c |}.

(** [del(session.cookies[name])]: [RequestsCookieJar.__delitem__] clears
    every cookie of that name and raises nothing when there is none. *)
Definition del_cookie (n : string) (jar : list Cookie) : list Cookie :=
  filter (λ c, name c ≠ n) jar.

Section Analyzers.

(** [urllib.parse.urlparse(u).scheme] and [.netloc], from the Python
    library. *)
Variable urlparse_scheme : string → string.
Variable urlparse_netloc : string → string.

(** The preload lookups of [httpobs.scanner.analyzer.utils]: a record for
    a preloaded host, nothing otherwise. *)
Variable is_hsts_preloaded : string → option PreloadRecord.
Variable is_hpkp_preloaded : string → option PreloadRecord.

(** [only_if_worse(new_result, old_result, order)] of
    [httpobs.scanner.analyzer.utils]. *)
Variable only_if_worse : string → option string → list string → string.

(** *** [content_security_policy] *)

(** From the merged policy to the result code; the policy is returned as
    the removal of ['unsafe-inline'] leaves it. *)
Definition classify (response_url : string) (csp : policy) : string * policy :=
  let object_src := get_src csp "object-src" in
  let script_src := get_src csp "script-src" in
  let style_src := get_src csp "style-src" in
  let '(csp, script_src) :=
    if existsb hash_or_nonce (deref csp script_src)
       && mem "'unsafe-inline'" (deref csp script_src)
    then remove_in_place "'unsafe-inline'" csp script_src
    else (csp, script_src) in
  let object_src := deref csp object_src in
  let script_src := deref csp script_src in
  let style_src := deref csp style_src in
  let result :=
    if truthy (intersection script_src (dangerously_broad ++ unsafe_inline))
       || truthy (intersection object_src dangerously_broad)
    then "csp-implemented-with-unsafe-inline"
    else if bool_decide (urlparse_scheme response_url = "https")
            && truthy (List.filter (λ d, contains d "http:") (all_values csp))
    then "csp-implemented-with-insecure-scheme"
    else if truthy (intersection (union script_src style_src) ["'unsafe-eval'"])
    then "csp-implemented-with-unsafe-eval"
    else if truthy (intersection style_src (dangerously_broad ++ unsafe_inline))
    then "csp-implemented-with-unsafe-inline-in-style-src-only"
    else if match csp !! "default-src" with
            | Some d => set_eq d ["'none'"]
            | None => false
            end
    then "csp-implemented-with-no-unsafe-default-src-none"
    else "csp-implemented-with-no-unsafe" in
  (result, csp).

Definition content_security_policy (reqs : Reqs) (expectation : string)
  : output policy :=
  let response := responses_auto reqs in
  match parse_headers response with
  | Raise _ => Output None expectation false "csp-header-invalid"
  | Ok (http, equiv) =>
      let present :=
        bool_decide (is_Some (header response CSP))
        || bool_decide (is_Some (http_equiv response !! CSP)) in
      let any_headers := truthy_policy http || truthy_policy equiv in
      if present && negb any_headers
      then Output None expectation false "csp-header-invalid"
      else if negb any_headers
      then Output None expectation false "csp-not-implemented"
      else
        let csp := default ∅ (merge http equiv) in
        let '(result, csp) := classify (url response) csp in
        let data := if str_len csp <? 32768 then csp else ∅ in
        let pass :=
          bool_decide
            (result ∈ [expectation;
                       "csp-implemented-with-no-unsafe-default-src-none";
                       "csp-implemented-with-unsafe-inline-in-style-src-only"]) in
        Output (Some data) expectation pass result
  end.

(** *** [strict_transport_security] *)

Definition SIX_MONTHS : Z := 15552000.

(** One turn of the parameter loop; [None] when [int] raises. *)
Definition hsts_parameter (out : Hsts.output) (parameter : string)
  : option Hsts.output :=
  if startswith parameter "max-age=" then
    match int (slice 8 128 parameter) with
    | Some n => Some (Hsts.set_max_age (Some n) out)
    | None => None
    end
  else if bool_decide (parameter = "includesubdomains")
  then Some (Hsts.set_includeSubDomains true out)
  else if bool_decide (parameter = "preload")
  then Some (Hsts.set_preload true out)
  else Some out.

(** The parameter loop: the output as the loop leaves it, and whether it
    left by an exception. *)
Fixpoint hsts_loop (out : Hsts.output) (sts : list string)
  : Hsts.output * bool :=
  match sts with
  | [] => (out, false)
  | parameter :: rest =>
      match hsts_parameter out parameter with
      | Some out' => hsts_loop out' rest
      | None => (out, true)
      end
  end.

(** The [try] statement, with its [except] clause. *)
Definition hsts_parse (out : Hsts.output) (data : string) : Hsts.output :=
  let sts := (λ i, strip (lower i)) <$> split_on ";" data in
  if contains data "," then Hsts.set_result "hsts-header-invalid" out
  else
    let '(out, raised) := hsts_loop out sts in
    if raised then Hsts.set_result "hsts-header-invalid" out
    else if truthy_int (Hsts.max_age out) then
      if default 0 (Hsts.max_age out) <? SIX_MONTHS
      then Hsts.set_result "hsts-implemented-max-age-less-than-six-months" out
      else Hsts.set_result "hsts-implemented-max-age-at-least-six-months" out
    else Hsts.set_result "hsts-header-invalid" out.

Definition STS : string := "Strict-Transport-Security".

Definition strict_transport_security (reqs : Reqs) (expectation : string)
  : Hsts.output :=
  let output :=
    Hsts.Output None expectation false None false false false
      "hsts-not-implemented" in
  let response := responses_https reqs in
  let output :=
    match response with
    | None => Hsts.set_result "hsts-not-implemented-no-https" output
    | Some response =>
        if negb (verified response)
        then Hsts.set_result "hsts-invalid-cert" output
        else match header response STS with
             | Some value =>
                 let data := slice 0 1024 value in
                 hsts_parse (Hsts.set_data (Some data) output) data
             | None => output
             end
    end in
  let output :=
    match response with
    | Some response =>
        match is_hsts_preloaded (urlparse_netloc (url response)) with
        | Some preloaded =>
            Hsts.set_preloaded true
              (Hsts.set_includeSubDomains (includeSubDomains preloaded)
                 (Hsts.set_result "hsts-preloaded" output))
        | None => output
        end
    | None => output
    end in
  if bool_decide
       (Hsts.result output ∈ ["hsts-implemented-max-age-at-least-six-months";
                              "hsts-preloaded"; expectation])
  then Hsts.set_pass true output
  else output.

(** *** [public_key_pinning] *)

Definition FIFTEEN_DAYS : Z := 1296000.

(** One turn of the parameter loop on the output and the list [pins];
    [None] when [int] raises. *)
Definition hpkp_parameter (st : Hpkp.output * list string) (parameter : string)
  : option (Hpkp.output * list string) :=
  let '(out, pins) := st in
  if startswith parameter "max-age=" then
    match int (slice 8 128 parameter) with
    | Some n => Some (Hpkp.set_max_age (Some n) out, pins)
    | None => None
    end
  else if startswith parameter "pin-sha256=" && negb (mem parameter pins)
  then Some (out, pins ++ [parameter])
  else if bool_decide (parameter = "includesubdomains")
  then Some (Hpkp.set_includeSubDomains true out, pins)
  else Some st.

Fixpoint hpkp_loop (st : Hpkp.output * list string) (pkp : list string)
  : Hpkp.output * list string * bool :=
  match pkp with
  | [] => (st, false)
  | parameter :: rest =>
      match hpkp_parameter st parameter with
      | Some st' => hpkp_loop st' rest
      | None => (st, true)
      end
  end.

Definition hpkp_invalid (out : Hpkp.output) : Hpkp.output :=
  Hpkp.set_pass false (Hpkp.set_result "hpkp-header-invalid" out).

(** The [try] statement, with its [except] clause. *)
Definition hpkp_parse (out : Hpkp.output) (data : string) : Hpkp.output :=
  let pkp := (λ i, strip (lower i)) <$> split_on ";" data in
  let '(out, pins, raised) := hpkp_loop (out, []) pkp in
  if raised then hpkp_invalid out
  else
    let out := Hpkp.set_numPins (Some (Z.of_nat (length pins))) out in
    let out :=
      if truthy_int (Hpkp.max_age out) then
        if default 0 (Hpkp.max_age out) <? FIFTEEN_DAYS
        then Hpkp.set_result "hpkp-implemented-max-age-less-than-fifteen-days" out
        else Hpkp.set_result "hpkp-implemented-max-age-at-least-fifteen-days" out
      else out in
    if negb (truthy_int (Hpkp.max_age out)) || (Z.of_nat (length pins) <? 2)
    then hpkp_invalid out
    else out.

Definition PKP : string := "Public-Key-Pins".

Definition public_key_pinning (reqs : Reqs) (expectation : string)
  : Hpkp.output :=
  let output :=
    Hpkp.Output None expectation false None None true false
      "hpkp-not-implemented" in
  let response := responses_https reqs in
  let output :=
    match response with
    | None => Hpkp.set_result "hpkp-not-implemented-no-https" output
    | Some response =>
        if negb (verified response)
        then Hpkp.set_result "hpkp-invalid-cert" output
        else match header response PKP with
             | Some value =>
                 let data := slice 0 2048 value in
                 hpkp_parse (Hpkp.set_data (Some data) output) data
             | None => output
             end
    end in
  match response with
  | Some response =>
      match is_hpkp_preloaded (urlparse_netloc (url response)) with
      | Some preloaded =>
          Hpkp.set_preloaded true
            (Hpkp.set_includeSubDomains (includeSubDomainsForPinning preloaded)
               (Hpkp.set_result "hpkp-preloaded" output))
      | None => output
      end
  | None => output
  end.

(** *** [cookies] *)

Definition goodness : list string :=
  ["cookies-without-secure-flag-but-protected-by-hsts";
   "cookies-without-secure-flag";
   "cookies-session-without-secure-flag-but-protected-by-hsts";
   "cookies-session-without-httponly-flag";
   "cookies-session-without-secure-flag"].

(** The cookie object once the loop body has set its [httponly]. *)
Definition backfill (cookie : Cookie) : Cookie :=
  match httponly cookie with
  | Some _ => cookie
  | None => set_httponly (mem "httponly" (lower <$> _rest cookie)) cookie
  end.

Definition jar_entry (cookie : Cookie) : Jar.entry :=
  Jar.Entry (domain cookie) (expires cookie) (httponly cookie) (path cookie)
    (port cookie) (secure cookie).

(** One turn of the loop, on the jar and [output['result']]; [cookie] has
    its [httponly] set. *)
Definition cookie_step (hsts : bool)
    (st : gmap string Jar.entry * option string) (cookie : Cookie)
  : gmap string Jar.entry * option string :=
  let '(jar, result) := st in
  let jar := <[name cookie := jar_entry cookie]> jar in
  let sessionid :=
    existsb (λ i, contains (lower (name cookie)) i) ["login"; "sess"] in
  let result :=
    if negb (secure cookie) && hsts
    then Some (only_if_worse
                 "cookies-without-secure-flag-but-protected-by-hsts"
                 result goodness)
    else if negb (secure cookie)
    then Some (only_if_worse "cookies-without-secure-flag" result goodness)
    else result in
  let result :=
    if sessionid && negb (secure cookie) && hsts
    then Some (only_if_worse
                 "cookies-session-without-secure-flag-but-protected-by-hsts"
                 result goodness)
    else if sessionid && negb (secure cookie)
    then Some (only_if_worse "cookies-session-without-secure-flag"
                 result goodness)
    else result in
  let result :=
    if sessionid && negb (default false (httponly cookie))
    then Some (only_if_worse "cookies-session-without-httponly-flag"
                 result goodness)
    else result in
  (jar, result).

(** [cookies] changes the jar of the session and the cookie objects in
    it, so the embedding returns the request bundle as the call leaves
    it. *)
Definition cookies (reqs : Reqs) (expectation : string)
  : output (gmap string Jar.entry) * Reqs :=
  let hsts :=
    Hsts.pass
      (strict_transport_security reqs
         "hsts-implemented-max-age-at-least-six-months") in
  match session_cookies reqs with
  | [] =>
      (Output None expectation
         (bool_decide ("cookies-not-found" ∈ ["cookies-not-found"; expectation]))
         "cookies-not-found",
       reqs)
  | _ =>
      let session := backfill <$> del_cookie "__cfduid" (session_cookies reqs) in
      let '(jar, result) := foldl (cookie_step hsts) (∅, None) session in
      let data := if jar_str_len jar <? 32768 then jar else ∅ in
      let result :=
        match result with
        | Some (String c r) => String c r
        | _ => "cookies-secure-with-httponly-sessions"
        end in
      (Output (Some data) expectation
         (bool_decide (result ∈ ["cookies-not-found"; expectation])) result,
       set_session_cookies session reqs)
  end.

(** *** [referrer_policy] *)

Definition rp_goodness : list string :=
  ["no-referrer"; "same-origin"; "strict-origin";
   "strict-origin-when-cross-origin"].

Definition rp_badness : list string :=
  ["origin"; "origin-when-cross-origin"; "unsafe-url"].

Definition rp_valid : list string :=
  rp_goodness ++ rp_badness ++ ["no-referrer-when-downgrade"].

Definition RP : string := "Referrer-Policy".

(** The analyzer from the point where [output['data']] is set. *)
Definition rp_classify (data expectation : string) : output string :=
  let policy :=
    strip <$> filter (λ token, strip token ∈ rp_valid)
                (split_on "," (lower data)) in
  let policy := List.last (Some <$> policy) None in
  let result :=
    match policy with
    | Some p =>
        if mem p rp_goodness then "referrer-policy-private"
        else if bool_decide (p = "no-referrer-when-downgrade")
        then "referrer-policy-no-referrer-when-downgrade"
        else if mem p rp_badness then "referrer-policy-unsafe"
        else "referrer-policy-header-invalid"
    | None => "referrer-policy-header-invalid"
    end in
  Output (Some data) expectation
    (bool_decide (result ∈ ["referrer-policy-private";
                            "referrer-policy-not-implemented";
                            "referrer-policy-no-referrer-when-downgrade";
                            expectation]))
    result.

(** Slicing [None] raises [TypeError], which nothing catches. *)
Definition referrer_policy (reqs : Reqs) (expectation : string)
  : outcome (output string) :=
  let response := responses_auto reqs in
  match header response RP, http_equiv response !! RP with
  | Some h, Some e =>
      Ok (rp_classify (slice 0 256 (join ", " [h; e])) expectation)
  | None, None =>
      Ok (Output None expectation true "referrer-policy-not-implemented")
  | h, e =>
      let chosen :=
        match e with
        | Some (String c r) => e
        | _ => h
        end in
      match chosen with
      | Some v => Ok (rp_classify (slice 0 256 v) expectation)
      | None => Raise TypeError
      end
  end.

(** *** [x_content_type_options] *)

Definition XCTO : string := "X-Content-Type-Options".

Definition x_content_type_options (reqs : Reqs) (expectation : string)
  : output string :=
  let response := responses_auto reqs in
  let '(data, result) :=
    match header response XCTO with
    | Some value =>
        let data := slice 0 256 value in
        (Some data,
         if bool_decide (lower data = "nosniff")
         then "x-content-type-options-nosniff"
         else "x-content-type-options-header-invalid")
    | None => (None, "x-content-type-options-not-implemented")
    end in
  Output data expectation (bool_decide (expectation = result)) result.

(** *** [x_frame_options] *)

Definition XFO : string := "X-Frame-Options".

Definition x_frame_options (reqs : Reqs) (expectation : string)
  : output string :=
  let response := responses_auto reqs in
  let '(raw, code) :=
    match header response XFO with
    | Some value =>
        let raw := slice 0 1024 value in
        let xfo := lower (strip raw) in
        (Some raw,
         if mem xfo ["deny"; "sameorigin"]
         then "x-frame-options-sameorigin-or-deny"
         else if startswith xfo "allow-from "
         then "x-frame-options-allow-from-origin"
         else "x-frame-options-header-invalid")
    | None => (None, "x-frame-options-not-implemented")
    end in
  let csp := content_security_policy reqs "csp-implemented-with-no-unsafe" in
  let code :=
    match data csp with
    | Some d =>
        if bool_decide (d ≠ ∅) && bool_decide (is_Some (d !! "frame-ancestors"))
        then "x-frame-options-implemented-via-csp"
        else code
    | None => code
    end in
  Output raw expectation
    (bool_decide (code ∈ ["x-frame-options-allow-from-origin";
                          "x-frame-options-sameorigin-or-deny";
                          "x-frame-options-implemented-via-csp";
                          expectation]))
    code.

(** *** [x_xss_protection] *)

Definition XXSSP : string := "X-XSS-Protection".

(** The dictionary comprehension over [xxssp.split(';')]; a later item
    replaces an earlier one with the same key. *)
Definition xxssp_dict (xxssp : string) : gmap string (option string) :=
  foldl
    (λ m d,
       let parts := split_on "=" d in
       <[strip (default EmptyString (parts !! 0%nat)) :=
           if contains d "="
           then Some (strip (default EmptyString (parts !! 1%nat)))
           else None]> m)
    ∅ (split_on ";" xxssp).

Definition x_xss_protection (reqs : Reqs) (expectation : string)
  : output string :=
  let response := responses_auto reqs in
  let csp_fallback (data : option string) (result : string) :=
    let passed := contains result "enabled" in
    if negb passed
       && pass (content_security_policy reqs "csp-implemented-with-no-unsafe")
    then Output data expectation true "x-xss-protection-not-needed-due-to-csp"
    else Output data expectation passed result in
  match header response XXSSP with
  | Some (String first _ as xxssp) =>
      let data := Some (slice 0 256 xxssp) in
      if negb (eqc first "0" || eqc first "1")
      then Output data expectation false "x-xss-protection-header-invalid"
      else
        let enabled := eqc first "1" in
        let xxssp := xxssp_dict xxssp in
        csp_fallback data
          (if enabled && bool_decide (xxssp !! "mode" = Some (Some "block"))
           then "x-xss-protection-enabled-mode-block"
           else if enabled then "x-xss-protection-enabled"
           else "x-xss-protection-disabled")
  | _ => csp_fallback None "x-xss-protection-not-implemented"
  end.

End Analyzers.

(** ** A concrete environment for the examples *)

(** A reading of absolute URLs of the form [scheme://host/path], which is
    all the examples use. *)
Definition url_scheme (u : string) : string :=
  match split_on ":" u with
  | s :: _ :: _ => lower s
  | _ => EmptyString
  end.

Definition url_netloc (u : string) : string :=
  match split_on "/" u with
  | _ :: EmptyString :: host :: _ => host
  | _ => EmptyString
  end.

Definition index_of (x : string) (order : list string) : nat :=
  default (length order) (fst <$> list_find (λ y, y = x) order).

(** Modelled from the spec: [only_if_worse] lives in
    [httpobs/scanner/analyzer/utils.py]; it keeps the worse of two result
    codes by their position in [order], and the new code when there is no
    old one. *)
Definition only_if_worse_model (new_result : string)
    (old_result : option string) (order : list string) : string :=
  match old_result with
  | Some (String c r) =>
      if (index_of (String c r) order <? index_of new_result order)%nat
      then new_result else String c r
  | _ => new_result
  end.

Definition no_preload (host : string) : option PreloadRecord := None.

(** A preload list with the single host [example.com]. *)
Definition example_preload (host : string) : option PreloadRecord :=
  if bool_decide (host = "example.com")
  then Some {| includeSubDomains := true; includeSubDomainsForPinning := true |}
  else None.

(** A response with the given headers, filed under their lower-cased
    names. *)
Definition response_of (hdrs equiv : list (string * string)) (u : string)
    (v : bool) : Response :=
  {| headers := list_to_map ((λ kv, (lower kv.1, kv.2)) <$> hdrs);
     http_equiv := list_to_map equiv;
     url := u;
     verified := v |}.

Definition reqs_of (hdrs : list (string * string)) (u : string)
    (jar : list Cookie) : Reqs :=
  let r := response_of hdrs [] u true in
  {| responses_auto := r;
     responses_https :=
       if bool_decide (url_scheme u = "https") then Some r else None;
     session_cookies := jar |}.

(** ** Vocabulary of the statements *)

(** The parameters of a Strict-Transport-Security or Public-Key-Pins
    value, as the two analyzers split it. *)
Definition params (data : string) : list string :=
  (λ i, strip (lower i)) <$> split_on ";" data.

Definition is_max_age (parameter : string) : bool :=
  startswith parameter "max-age=".

Definition is_pin (parameter : string) : bool :=
  startswith parameter "pin-sha256=".

(** What [int] makes of each max-age parameter, in order; [None] is a value
    that [int] refuses. *)
Definition max_age_values (sts : list string) : list (option Z) :=
  (λ parameter, int (slice 8 128 parameter))
    <$> List.filter is_max_age sts.

Definition two_distinct (l : list string) : Prop :=
  ∃ p q, p ∈ l ∧ q ∈ l ∧ p ≠ q.

(** The ways a Public-Key-Pins value fails to parse. *)
Definition hpkp_parse_fails (data : string) : Prop :=
  max_age_values (params data) = []
  ∨ None ∈ max_age_values (params data)
  ∨ List.last (max_age_values (params data)) None = Some 0
  ∨ ¬ two_distinct (List.filter is_pin (params data)).

(** The policy the analyzer classifies: the merge of the parsed policies,
    when both parse and one of them is not empty. *)
Definition merged_policy (response : Response) : option policy :=
  match parse_headers response with
  | Ok (http, equiv) =>
      if truthy_policy http || truthy_policy equiv then merge http equiv
      else None
  | Raise _ => None
  end.

(** Every directive of a policy has at least one source. *)
Definition policy_wf (csp : policy) : Prop :=
  ∀ k v, csp !! k = Some v → v ≠ [].

(** The policies on which script_src and style_src are one set object that
    the analyzer changes: no script-src, no style-src, and a default-src
    with a hash or nonce and 'unsafe-inline'. *)
Definition shared_removal (csp : policy) : Prop :=
  csp !! "script-src" = None
  ∧ csp !! "style-src" = None
  ∧ ∃ d, csp !! "default-src" = Some d
         ∧ existsb hash_or_nonce d = true
         ∧ "'unsafe-inline'" ∈ d.

Definition has_directive (response : Response) (directive : string) : bool :=
  match merged_policy response with
  | Some csp => bool_decide (is_Some (csp !! directive))
  | None => false
  end.

(** The eight analyzers, and one of them run on a request bundle: what it
    returns (or raises) and the bundle as it leaves it.  Only [cookies]
    assigns to anything reachable from [reqs]. *)
Inductive analyzer :=
| ContentSecurityPolicy
| Cookies
| PublicKeyPinning
| ReferrerPolicy
| StrictTransportSecurity
| XContentTypeOptions
| XFrameOptions
| XXSSProtection.

Inductive scored :=
| ScoredPolicy (o : output policy)
| ScoredJar (o : output (gmap string Jar.entry))
| ScoredPins (o : Hpkp.output)
| ScoredTransport (o : Hsts.output)
| ScoredHeader (o : output string)
| Uncaught (e : exn).

Definition run (urlparse_scheme urlparse_netloc : string → string)
    (is_hsts_preloaded is_hpkp_preloaded : string → option PreloadRecord)
    (only_if_worse : string → option string → list string → string)
    (a : analyzer) (reqs : Reqs) (expectation : string) : scored * Reqs :=
  match a with
  | ContentSecurityPolicy =>
      (ScoredPolicy (content_security_policy urlparse_scheme reqs expectation),
       reqs)
  | Cookies =>
      let '(o, reqs') :=
        cookies urlparse_netloc is_hsts_preloaded only_if_worse reqs
          expectation in
      (ScoredJar o, reqs')
  | PublicKeyPinning =>
      (ScoredPins
         (public_key_pinning urlparse_netloc is_hpkp_preloaded reqs expectation),
       reqs)
  | ReferrerPolicy =>
      (match referrer_policy reqs expectation with
       | Ok o => ScoredHeader o
       | Raise e => Uncaught e
       end, reqs)
  | StrictTransportSecurity =>
      (ScoredTransport
         (strict_transport_security urlparse_netloc is_hsts_preloaded reqs
            expectation),
       reqs)
  | XContentTypeOptions =>
      (ScoredHeader (x_content_type_options reqs expectation), reqs)
  | XFrameOptions =>
      (ScoredHeader (x_frame_options urlparse_scheme reqs expectation), reqs)
  | XXSSProtection =>
      (ScoredHeader (x_xss_protection urlparse_scheme reqs expectation), reqs)
  end.

(** The two conditions under which a policy string is said not to parse. *)
Definition too_short_or_blank (csp_string : string) : Prop :=
  len (clean csp_string) < 6 ∨ isspace (clean csp_string) = true.

Definition directive_names (csp_string : string) : list string :=
  omap head (entries_of (clean csp_string)).

Definition repeats_directive (csp_string : string) : Prop :=
  ¬ NoDup (directive_names csp_string).

(** The source set [__parse_csp] files for an entry. *)
Definition entry_values (entry : list string) : list string :=
  if (1 <? Z.of_nat (length entry))
  then set_of (lower <$> split (List.last entry EmptyString))
  else ["'none'"].

(** A cookie whose name marks it as a session identifier, and the
    httponly flag the loop of [cookies] reads on it. *)
Definition is_session (c : Cookie) : bool :=
  existsb (λ i, contains (lower (name c)) i) ["login"; "sess"].

Definition httponly_flag (c : Cookie) : bool :=
  match httponly c with
  | Some b => b
  | None => mem "httponly" (lower <$> _rest c)
  end.

(** The decision chain as it is described: each of object-src, script-src
    and style-src is the directive's own set, else that of default-src,
    else the single source [*]; 'unsafe-inline' is dropped from script-src
    alone when script-src holds a hash or a nonce. *)
Definition effective (csp : policy) (directive : string) : list string :=
  match csp !! directive with
  | Some values => values
  | None =>
      match csp !! "default-src" with
      | Some values => values
      | None => ["*"]
      end
  end.

Definition intersects (s l : list string) : bool :=
  existsb (λ x, mem x l) s.

Definition described_chain (scheme : string) (csp : policy) : string :=
  let object_src := effective csp "object-src" in
  let script_src :=
    if existsb hash_or_nonce (effective csp "script-src")
    then remove "'unsafe-inline'" (effective csp "script-src")
    else effective csp "script-src" in
  let style_src := effective csp "style-src" in
  if intersects script_src (dangerously_broad ++ unsafe_inline)
     || intersects object_src dangerously_broad
  then "csp-implemented-with-unsafe-inline"
  else if bool_decide (scheme = "https")
          && existsb (λ d, contains d "http:") (all_values csp)
  then "csp-implemented-with-insecure-scheme"
  else if mem "'unsafe-eval'" script_src || mem "'unsafe-eval'" style_src
  then "csp-implemented-with-unsafe-eval"
  else if intersects style_src (dangerously_broad ++ unsafe_inline)
  then "csp-implemented-with-unsafe-inline-in-style-src-only"
  else if match csp !! "default-src" with
          | Some d => set_eq d ["'none'"]
          | None => false
          end
  then "csp-implemented-with-no-unsafe-default-src-none"
  else "csp-implemented-with-no-unsafe".

(** The valid tokens [referrer_policy] finds in [data], in order; the last
    one is the policy it classifies. *)
Definition rp_tokens (data : string) : list string :=
  strip <$> filter (λ token, strip token ∈ rp_valid)
              (split_on "," (lower data)).

(** ** Inputs the statements are tried on *)

Definition SITE : string := "https://example.com/".

(** A policy whose default-src holds a nonce and 'unsafe-inline' and that
    has neither script-src nor style-src. *)
Definition reqs_shared_default : Reqs :=
  reqs_of [(CSP, "default-src 'unsafe-inline' 'nonce-abc'")] SITE [].

(** A policy with a segment of one space between two semicolons. *)
Definition blank_segment : string := "default-src 'self'; ; img-src 'self'".

Definition reqs_blank_segment : Reqs := reqs_of [(CSP, blank_segment)] SITE [].

Definition reqs_none : Reqs := reqs_of [(CSP, "default-src 'none'")] SITE [].

(** A policy of 32784 characters: frame-ancestors with one source of 32768
    letters. *)
Definition reqs_long_policy : Reqs :=
  reqs_of [(CSP, "frame-ancestors " +:+ repeat_str "a" 32768)] SITE [].

Definition reqs_frame_ancestors : Reqs :=
  reqs_of [(CSP, "frame-ancestors 'none'")] SITE [].

Definition reqs_max_age_zero : Reqs := reqs_of [(STS, "max-age=0")] SITE [].

Definition reqs_one_pin : Reqs :=
  reqs_of [(PKP, "max-age=5184000; pin-sha256=abc")] SITE [].

Definition reqs_bad_xxssp : Reqs :=
  reqs_of [(XXSSP, "2"); (CSP, "default-src 'none'")] SITE [].

Definition reqs_xxssp_off : Reqs :=
  reqs_of [(XXSSP, "0"); (CSP, "default-src 'none'")] SITE [].

Definition cfduid : Cookie :=
  {| name := "__cfduid"; domain := ".example.com"; expires := None;
     path := "/"; port := None; secure := false; httponly := None;
     _rest := ["HttpOnly"] |}.

Definition reqs_tracking_only : Reqs := reqs_of [] SITE [cfduid].

Definition policy_none : policy := {[ "default-src" := ["'none'"] ]}.



(** The unit separator, code 31: [str.strip] removes it, [int] refuses
    it. *)
Definition US : ascii := ascii_of_N 31.



Definition reqs_plain_http : Reqs := reqs_of [] "http://example.com/" [].

(** Three pins, two of which differ by case only. *)
Definition TWO_PINS : string :=
  "Max-Age=5184000; Pin-SHA256=abc; pin-sha256=def; pin-sha256=ABC".

Definition reqs_two_pins : Reqs := reqs_of [(PKP, TWO_PINS)] SITE [].

Definition PINS_SEPARATOR : string :=
  "Max-Age=" +:+ String US "5184000; pin-sha256=abc; pin-sha256=def".

Definition reqs_pins_separator : Reqs :=
  reqs_of [(PKP, PINS_SEPARATOR)] SITE [].

(** A session cookie with Secure, and HttpOnly among its other
    attributes. *)
Definition sessionid : Cookie :=
  {| name := "sessionid"; domain := "example.com"; expires := None;
     path := "/"; port := None; secure := true; httponly := None;
     _rest := ["HttpOnly"] |}.

Definition reqs_session_cookie : Reqs := reqs_of [] SITE [sessionid].

Definition reqs_mixed_jar : Reqs := reqs_of [] SITE [cfduid; sessionid].

(** A response with unsafe-url in the Referrer-Policy header and
    no-referrer in the http-equiv tag. *)
Definition reqs_both_referrers : Reqs :=
  let r := response_of [(RP, "unsafe-url")] [(RP, "no-referrer")] SITE true in
  {| responses_auto := r; responses_https := Some r; session_cookies := [] |}.

(** ** Properties *)

Section Properties.

Set Default Proof Using "Type".

Variable urlparse_scheme : string → string.
Variable urlparse_netloc : string → string.
Variable is_hsts_preloaded : string → option PreloadRecord.
Variable is_hpkp_preloaded : string → option PreloadRecord.
Variable only_if_worse : string → option string → list string → string.

(** Drops the functions of the environment a statement does not mention. *)
Local Ltac drop_env :=
  repeat match goal with f : string → _ |- _ => clear f end.

(** *** Preload lists *)

(** C5. When the HTTPS response's host is on the preload list, the result
    is the preloaded code and includeSubDomains is the record's, for both
    strict_transport_security and public_key_pinning, whatever the header
    holds. *)
Theorem preloaded_host_overrides reqs expectation response :
  responses_https reqs = Some response →
  (∀ hit, is_hsts_preloaded (urlparse_netloc (url response)) = Some hit →
     Hsts.result (strict_transport_security urlparse_netloc is_hsts_preloaded reqs expectation) = "hsts-preloaded"
     ∧ Hsts.includeSubDomains (strict_transport_security urlparse_netloc is_hsts_preloaded reqs expectation)
       = includeSubDomains hit
     ∧ Hsts.preloaded (strict_transport_security urlparse_netloc is_hsts_preloaded reqs expectation) = true)
  ∧ (∀ hit, is_hpkp_preloaded (urlparse_netloc (url response)) = Some hit →
       Hpkp.result (public_key_pinning urlparse_netloc is_hpkp_preloaded reqs expectation) = "hpkp-preloaded"
       ∧ Hpkp.includeSubDomains (public_key_pinning urlparse_netloc is_hpkp_preloaded reqs expectation)
         = includeSubDomainsForPinning hit
       ∧ Hpkp.preloaded (public_key_pinning urlparse_netloc is_hpkp_preloaded reqs expectation) = true).
Proof.
  intros Hresp. split; intros hit Hhit.
  - unfold strict_transport_security. rewrite Hresp, Hhit.
    case_bool_decide; auto.
  - unfold public_key_pinning. rewrite Hresp, Hhit. auto.
Qed.

(** *** Merging the two policies *)

Lemma truthy_policy_false_Some (p : policy) :
  truthy_policy (Some p) = false → p = ∅.
Proof.
  unfold truthy_policy. intros H%bool_decide_eq_false.
  by destruct (decide (p = ∅)).
Qed.

Lemma union_nil_r (a : list string) : union a [] = a.
Proof.
  unfold union, list_union. rewrite app_nil_r.
  induction a as [|x a IH]; [done|]. simpl. by rewrite IH.
Qed.

Lemma lookup_merged (h e : policy) k :
  (set_to_map
     (λ k, (k, union (default [] (h !! k)) (default [] (e !! k))))
     (dom h ∪ dom e : gset string) : policy) !! k
  = if decide (k ∈ dom h ∪ dom e)
    then Some (union (default [] (h !! k)) (default [] (e !! k)))
    else None.
Proof.
  drop_env.
  apply option_eq. intros v. rewrite lookup_set_to_map by naive_solver.
  case_decide; naive_solver.
Qed.

Lemma merge_lookup (h e : policy) k :
  ∃ m, merge (Some h) (Some e) = Some m
       ∧ m !! k = match h !! k, e !! k with
                  | Some a, Some b => Some (union a b)
                  | Some a, None => Some a
                  | None, Some b => Some b
                  | None, None => None
                  end.
Proof.
  unfold merge.
  destruct (truthy_policy (Some h)) eqn:Hh;
    [destruct (truthy_policy (Some e)) eqn:He|]; simpl.
  - eexists; split; [done|]. rewrite lookup_merged.
    case_decide as Hd; rewrite elem_of_union, !elem_of_dom in Hd;
      destruct (h !! k) as [a|] eqn:Hk, (e !! k) as [b|] eqn:Ek; simpl;
      try done.
    + by rewrite union_nil_r.
    + by destruct Hd as [[? ?]|[? ?]].
    + destruct Hd; eauto.
    + destruct Hd; eauto.
    + destruct Hd; eauto.
  - apply truthy_policy_false_Some in He as ->.
    eexists; split; [done|]. rewrite lookup_empty. by destruct (h !! k).
  - apply truthy_policy_false_Some in Hh as ->.
    eexists; split; [done|]. rewrite lookup_empty. by destruct (e !! k).
Qed.

(** C3. Where the analyzer merges, that is when some parsed policy is not
    empty: with both policies parsed, the merged policy has exactly the
    directives of either, each mapped to the union of its two source sets,
    and a directive of one policy only keeps its set as it is; with one
    policy only, that policy is the merged policy. *)
Theorem merge_is_union (http equiv : option policy) :
  truthy_policy http || truthy_policy equiv = true →
  ∃ m, merge http equiv = Some m
       ∧ match http, equiv with
         | Some h, Some e =>
             ∀ k,
               (is_Some (m !! k) ↔ is_Some (h !! k) ∨ is_Some (e !! k))
               ∧ (∀ x, x ∈ default [] (m !! k)
                       ↔ x ∈ default [] (h !! k) ∨ x ∈ default [] (e !! k))
               ∧ (h !! k = None → m !! k = e !! k)
               ∧ (e !! k = None → m !! k = h !! k)
         | Some h, None => m = h
         | None, Some e => m = e
         | None, None => False
         end.
Proof.
  drop_env.
  intros Hany. destruct http as [h|], equiv as [e|].
  - destruct (merge_lookup h e "") as (m & Hm & _).
    exists m. split; [done|]. intros k.
    destruct (merge_lookup h e k) as (m' & Hm' & Hk).
    assert (m' = m) as -> by congruence. rewrite Hk.
    destruct (h !! k) as [a|], (e !! k) as [b|]; simpl;
      split_and!; try done; try (intros x; rewrite ?elem_of_nil);
      try tauto; try apply list_elem_of_union; try (split; by eauto).
  - exists h. split; [|done]. unfold merge.
    rewrite orb_false_r in Hany. by rewrite Hany, andb_false_r.
  - by exists e.
  - done.
Qed.

(** *** Cookies *)

Definition DEFAULT_CSP : string := "csp-implemented-with-no-unsafe".

Lemma del_cookie_all n jar :
  Forall (λ c, name c = n) jar → del_cookie n jar = [].
Proof.
  drop_env.
  induction 1 as [|c jar Hc _ IH]; [done|].
  unfold del_cookie in *. rewrite filter_cons_False; [exact IH|]. tauto.
Qed.

Lemma del_cookie_none n jar :
  Forall (λ c, name c ≠ n) jar → del_cookie n jar = jar.
Proof.
  induction 1 as [|c jar Hc _ IH]; [done|].
  unfold del_cookie in *. rewrite filter_cons_True by done. by rewrite IH.
Qed.

(** A jar with no cookie at all gives cookies-not-found with pass true,
    for every expectation. *)
Lemma cookies_not_found_on_empty_jar reqs expectation :
  session_cookies reqs = [] →
  result (cookies urlparse_netloc is_hsts_preloaded only_if_worse reqs expectation).1 = "cookies-not-found"
  ∧ pass (cookies urlparse_netloc is_hsts_preloaded only_if_worse reqs expectation).1 = true.
Proof.
  intros Hjar. unfold cookies. rewrite Hjar. by split.
Qed.

(** The jar is tested for emptiness before the tracking cookie is deleted:
    a jar holding nothing but tracking cookies is reported as
    cookies-secure-with-httponly-sessions, and is emptied. *)
Lemma cookies_only_tracking reqs expectation :
  session_cookies reqs ≠ [] →
  Forall (λ c, name c = "__cfduid") (session_cookies reqs) →
  result (cookies urlparse_netloc is_hsts_preloaded only_if_worse reqs expectation).1
  = "cookies-secure-with-httponly-sessions"
  ∧ pass (cookies urlparse_netloc is_hsts_preloaded only_if_worse reqs expectation).1
    = bool_decide (expectation = "cookies-secure-with-httponly-sessions")
  ∧ session_cookies (cookies urlparse_netloc is_hsts_preloaded only_if_worse reqs expectation).2 = [].
Proof.
  intros Hne Hall. unfold cookies.
  destruct (session_cookies reqs) as [|c jar] eqn:Hjar; [done|].
  rewrite (del_cookie_all _ _ Hall). simpl. split_and!; [done| |done].
  apply bool_decide_ext. rewrite !elem_of_cons, elem_of_nil.
  split; [intros [?|[?|[]]]; [done|by symmetry] | intros ->; right; by left].
Qed.

(** *** X-XSS-Protection *)

(** C7, as the code has it. When the header is absent, empty or starts
    with 0 and the content_security_policy analyzer passes, the result is
    x-xss-protection-not-needed-due-to-csp with pass true; a header whose
    first character is neither 0 nor 1 is reported as invalid with pass
    false before the policy is looked at. *)
Theorem xxssp_csp_fallback reqs expectation :
  (header (responses_auto reqs) XXSSP = None
   ∨ header (responses_auto reqs) XXSSP = Some EmptyString
   ∨ (∃ rest, header (responses_auto reqs) XXSSP = Some (String "0" rest)) →
   pass (content_security_policy urlparse_scheme reqs DEFAULT_CSP) = true →
   pass (x_xss_protection urlparse_scheme reqs expectation) = true
   ∧ result (x_xss_protection urlparse_scheme reqs expectation)
     = "x-xss-protection-not-needed-due-to-csp")
  ∧ (∀ first rest,
       header (responses_auto reqs) XXSSP = Some (String first rest) →
       first ≠ "0"%char → first ≠ "1"%char →
       pass (x_xss_protection urlparse_scheme reqs expectation) = false
       ∧ result (x_xss_protection urlparse_scheme reqs expectation)
         = "x-xss-protection-header-invalid").
Proof.
  split.
  - intros Hhdr Hcsp. unfold x_xss_protection. fold DEFAULT_CSP.
    destruct Hhdr as [-> | [-> | [rest ->]]]; simpl; rewrite ?Hcsp; done.
  - intros first rest Hhdr H0 H1. unfold x_xss_protection. rewrite Hhdr.
    assert (eqc first "0" = false) as -> by (by apply Ascii.eqb_neq).
    assert (eqc first "1" = false) as -> by (by apply Ascii.eqb_neq).
    done.
Qed.

(** *** Strict-Transport-Security *)

Lemma int_rstrip_cons c s :
  is_int_space c = false → ∃ r, int_rstrip (String c s) = String c r.
Proof.
  intros Hc. cbn [int_rstrip]. destruct (int_rstrip s); rewrite ?Hc; eauto.
Qed.

(** [int] refuses a literal that starts with one of the separators of
    codes 28 to 31, which [str.strip] would remove. *)
Lemma int_refuses_separator c s :
  is_space c = true → is_int_space c = false → int (String c s) = None.
Proof.
  intros Hs Hi. destruct (int_rstrip_cons c s Hi) as [r Hr].
  unfold int. cbn [int_lstrip]. rewrite Hi, Hr. clear Hr.
  destruct c as [[] [] [] [] [] [] [] []];
    vm_compute in Hs; vm_compute in Hi; try discriminate; reflexivity.
Qed.

Lemma last_cons {A} (x d : A) l : List.last (x :: l) d = List.last l x.
Proof.
  revert x d. induction l as [|y l IH]; intros x d; [done|].
  change (List.last (y :: l) d = List.last (y :: l) x).
  by rewrite !IH.
Qed.



Lemma max_age_values_cons p sts :
  max_age_values (p :: sts)
  = if is_max_age p then int (slice 8 128 p) :: max_age_values sts
    else max_age_values sts.
Proof. unfold max_age_values. simpl. by destruct (is_max_age p). Qed.


Lemma last_None_inv (vals : list (option Z)) :
  List.last vals None = None → vals = [] ∨ None ∈ vals.
Proof.
  induction vals as [|v vals IH]; [by left|]. rewrite last_cons.
  destruct vals as [|w vals]; simpl.
  - intros ->. right. left.
  - intros H. right. right.
    change (List.last (w :: vals) v = None) in H. rewrite last_cons in H.
    rewrite <- (last_cons w None) in H.
    destruct (IH H) as [?|?]; done.
Qed.

Lemma truthy_int_false (o : option Z) :
  truthy_int o = false ↔ o = None ∨ o = Some 0.
Proof.
  destruct o as [n|]; simpl; [|naive_solver].
  rewrite negb_false_iff, Z.eqb_eq. naive_solver.
Qed.



(** *** Public-Key-Pins *)

Lemma is_max_age_not_pin p : is_max_age p = true → is_pin p = false.
Proof.
  unfold is_max_age, is_pin. destruct p as [|c p]; [done|].
  cbn [startswith]. unfold eqc.
  destruct (Ascii.eqb_spec "m" c) as [<-|]; done.
Qed.

Lemma two_distinct_length (l : list string) :
  NoDup l → (2 ≤ length l)%nat ↔ two_distinct l.
Proof.
  intros Hnd. split.
  - destruct l as [|x [|y l]]; simpl; [lia..|]. intros _.
    exists x, y. split_and!; [left|right; left|].
    intros ->. apply NoDup_cons in Hnd as [Hx _]. apply Hx. left.
  - intros (p & q & Hp & Hq & Hpq).
    destruct l as [|x [|y l]]; simpl; [|exfalso|lia].
    + by apply elem_of_nil in Hp.
    + apply list_elem_of_singleton in Hp, Hq. congruence.
Qed.

Lemma filter_is_pin_cons p pkp :
  List.filter is_pin (p :: pkp)
  = if is_pin p then p :: List.filter is_pin pkp else List.filter is_pin pkp.
Proof. done. Qed.

(** The loop raises exactly when [int] refuses some max-age value;
    otherwise it leaves the last max-age value in the output and the
    distinct pin parameters in [pins]. *)
Lemma hpkp_loop_spec pkp out pins :
  ∃ out' pins' raised,
    hpkp_loop (out, pins) pkp = (out', pins', raised)
    ∧ (raised = true ↔ None ∈ max_age_values pkp)
    ∧ (raised = false →
       Hpkp.max_age out'
       = List.last (max_age_values pkp) (Hpkp.max_age out)
       ∧ Hpkp.pass out' = Hpkp.pass out
       ∧ (∀ x, x ∈ pins' ↔ x ∈ pins ∨ x ∈ List.filter is_pin pkp)
       ∧ (NoDup pins → NoDup pins')).
Proof.
  drop_env.
  revert out pins. induction pkp as [|p pkp IH]; intros out pins.
  - exists out, pins, false. split_and!; [done| |].
    + unfold max_age_values. simpl. rewrite elem_of_nil. naive_solver.
    + intros _. split_and!; [done..| |done].
      intros x. simpl. rewrite elem_of_nil. tauto.
  - rewrite max_age_values_cons, filter_is_pin_cons. cbn [hpkp_loop].
    unfold hpkp_parameter. fold (is_max_age p). fold (is_pin p).
    destruct (is_max_age p) eqn:Hp.
    + rewrite (is_max_age_not_pin p Hp).
      destruct (int (slice 8 128 p)) as [n|] eqn:Hn.
      * destruct (IH (Hpkp.set_max_age (Some n) out) pins)
          as (out' & pins' & raised & -> & Hr & Hok).
        exists out', pins', raised. split_and!; [done| |].
        -- rewrite Hr, elem_of_cons. naive_solver.
        -- intros Hf. destruct (Hok Hf) as (-> & -> & Hpins & Hnd).
           split_and!; [by rewrite last_cons|done..].
      * exists out, pins, true. split_and!; [done| |done].
        rewrite elem_of_cons. naive_solver.
    + destruct (is_pin p) eqn:Hpin; cbn [andb].
      * unfold mem. case_bool_decide as Hin; cbn [negb].
        -- assert (∃ out1, (if bool_decide (p = "includesubdomains")
                            then Some (Hpkp.set_includeSubDomains true out, pins)
                            else Some (out, pins)) = Some (out1, pins)
                           ∧ Hpkp.max_age out1 = Hpkp.max_age out
                           ∧ Hpkp.pass out1 = Hpkp.pass out)
             as (out1 & -> & Hm & Hps) by (case_bool_decide; eauto).
           destruct (IH out1 pins) as (out' & pins' & raised & -> & Hr & Hok).
           exists out', pins', raised. split_and!; [done..|].
           intros Hf. destruct (Hok Hf) as (-> & -> & Hpins & Hnd).
           split_and!; [by rewrite Hm|done| |done].
           intros x. rewrite Hpins, elem_of_cons. naive_solver.
        -- destruct (IH out (pins ++ [p]))
             as (out' & pins' & raised & -> & Hr & Hok).
           exists out', pins', raised. split_and!; [done..|].
           intros Hf. destruct (Hok Hf) as (-> & -> & Hpins & Hnd).
           split_and!; [done..| |].
           ++ intros x. rewrite Hpins, elem_of_app, list_elem_of_singleton,
                elem_of_cons. tauto.
           ++ intros Hn. apply Hnd. apply NoDup_app. split_and!; [done| |].
              ** intros x Hx ->%list_elem_of_singleton. done.
              ** apply NoDup_singleton.
      * assert (∃ out1, (if bool_decide (p = "includesubdomains")
                         then Some (Hpkp.set_includeSubDomains true out, pins)
                         else Some (out, pins)) = Some (out1, pins)
                        ∧ Hpkp.max_age out1 = Hpkp.max_age out
                        ∧ Hpkp.pass out1 = Hpkp.pass out)
          as (out1 & -> & Hm & Hps) by (case_bool_decide; eauto).
        destruct (IH out1 pins) as (out' & pins' & raised & -> & Hr & Hok).
        exists out', pins', raised. split_and!; [done..|].
        intros Hf. destruct (Hok Hf) as (-> & -> & Hpins & Hnd).
        split_and!; [by rewrite Hm|done..].
Qed.

Lemma hpkp_parse_spec out data :
  Hpkp.pass out = true →
  Hpkp.max_age out = None →
  (Hpkp.pass (hpkp_parse out data) = false ↔ hpkp_parse_fails data)
  ∧ (hpkp_parse_fails data →
     Hpkp.result (hpkp_parse out data) = "hpkp-header-invalid").
Proof.
  drop_env.
  intros Hpass Hnone. unfold hpkp_parse, hpkp_parse_fails. fold (params data).
  destruct (hpkp_loop_spec (params data) out [])
    as (out' & pins & raised & -> & Hr & Hok).
  destruct raised.
  - destruct Hr as [Hr _]. simpl. naive_solver.
  - destruct (Hok eq_refl) as (Hmax & Hps & Hpins & Hnd).
    rewrite Hnone in Hmax. rewrite Hpass in Hps.
    assert (None ∉ max_age_values (params data)) as Hnn.
    { intros Hin. by apply Hr in Hin. }
    assert ((Z.of_nat (length pins) <? 2) = true
            ↔ ¬ two_distinct (List.filter is_pin (params data))) as Hlen.
    { assert (NoDup pins) as Hnd' by (apply Hnd; constructor).
      pose proof (two_distinct_length pins Hnd') as H2.
      assert (two_distinct pins
              ↔ two_distinct (List.filter is_pin (params data))) as H3.
      { assert (∀ x, x ∈ pins ↔ x ∈ List.filter is_pin (params data))
          as Hpins'.
        { intros x. rewrite Hpins, elem_of_nil. tauto. }
        unfold two_distinct.
        split; intros (p & q & Hp & Hq & Hpq); exists p, q;
          split_and!; try done; by apply Hpins'. }
      rewrite Z.ltb_lt, <- H3, <- H2. lia. }
    cbv zeta.
    unfold hpkp_invalid, Hpkp.set_pass, Hpkp.set_result, Hpkp.set_numPins.
    cbn [Hpkp.max_age].
    destruct (truthy_int (Hpkp.max_age out')) eqn:Ht.
    + assert (Hpkp.max_age out' ≠ None ∧ Hpkp.max_age out' ≠ Some 0)
        as [Hn1 Hn2].
      { split; intros E; rewrite E in Ht; done. }
      rewrite Hmax in Hn1, Hn2.
      assert (max_age_values (params data) ≠ []) as Hne.
      { intros E. by rewrite E in Hn1. }
      destruct (default 0 (Hpkp.max_age out') <? FIFTEEN_DAYS);
        cbn [Hpkp.max_age]; rewrite Ht; cbn [negb orb];
        destruct (Z.of_nat (length pins) <? 2) eqn:Hl;
        cbn [Hpkp.pass Hpkp.result].
      all: split;
        [split; [intros Hp; try (by right; right; right; apply Hlen);
                 by rewrite Hps in Hp
                |intros [?|[?|[?|Hd]]]; try done; apply Hlen in Hd; done]
        |intros [?|[?|[?|Hd]]]; try done; apply Hlen in Hd; done].
    + cbn [Hpkp.max_age]. rewrite Ht. cbn [negb orb Hpkp.pass Hpkp.result].
      split; [split; [intros _|done]|done].
      apply truthy_int_false in Ht. rewrite Hmax in Ht.
      destruct Ht as [Ht|Ht]; [|by auto].
      apply last_None_inv in Ht. naive_solver.
Qed.

(** C10. public_key_pinning returns pass false exactly when a verified
    HTTPS response carries a Public-Key-Pins header that fails to parse: no
    max-age, a max-age value that [int] refuses, a last max-age of zero, or
    fewer than two distinct pin-sha256 parameters.  The expectation plays no
    part.  The result is then hpkp-header-invalid, or hpkp-preloaded when
    the host is on the preload list, with pass still false. *)
Theorem hpkp_pass_false_iff reqs expectation :
  (Hpkp.pass (public_key_pinning urlparse_netloc is_hpkp_preloaded reqs expectation) = false
   ↔ ∃ response value,
       responses_https reqs = Some response
       ∧ verified response = true
       ∧ header response PKP = Some value
       ∧ hpkp_parse_fails (slice 0 2048 value))
  ∧ (∀ response value,
       responses_https reqs = Some response →
       verified response = true →
       header response PKP = Some value →
       hpkp_parse_fails (slice 0 2048 value) →
       Hpkp.pass (public_key_pinning urlparse_netloc is_hpkp_preloaded reqs expectation) = false
       ∧ Hpkp.result (public_key_pinning urlparse_netloc is_hpkp_preloaded reqs expectation)
         = match is_hpkp_preloaded (urlparse_netloc (url response)) with
           | Some _ => "hpkp-preloaded"
           | None => "hpkp-header-invalid"
           end).
Proof.
  unfold public_key_pinning.
  destruct (responses_https reqs) as [response|] eqn:Hresp.
  2: { split; [split; [done|]|done]. by intros (r & v & [=] & _). }
  assert (∀ (o : Hpkp.output),
            Hpkp.pass
              match is_hpkp_preloaded (urlparse_netloc (url response)) with
              | Some preloaded =>
                  Hpkp.set_preloaded true
                    (Hpkp.set_includeSubDomains
                       (includeSubDomainsForPinning preloaded)
                       (Hpkp.set_result "hpkp-preloaded" o))
              | None => o
              end = Hpkp.pass o) as Hkeep.
  { intros o. by destruct (is_hpkp_preloaded _). }
  rewrite Hkeep.
  destruct (verified response) eqn:Hver; cbn [negb].
  - destruct (header response PKP) as [value|] eqn:Hhdr.
    + pose proof (hpkp_parse_spec
                    (Hpkp.set_data (Some (slice 0 2048 value))
                       (Hpkp.Output None expectation false None None true
                          false "hpkp-not-implemented"))
                    (slice 0 2048 value) eq_refl eq_refl) as [Hiff Hres].
      split.
      * rewrite Hiff. split; [by eauto 6|].
        intros (r & v & [= <-] & _ & Hv & Hfail). congruence.
      * intros r v [= <-] _ Hv Hfail.
        assert (v = value) as -> by congruence.
        split; [by apply Hiff|].
        destruct (is_hpkp_preloaded (urlparse_netloc (url response)));
          [done|by apply Hres].
    + split; [split; [done|]|].
      * intros (r & v & [= <-] & _ & Hv & _). congruence.
      * intros r v [= <-] _ Hv. congruence.
  - split; [split; [done|]|].
    + intros (r & v & [= <-] & Hv & _). congruence.
    + intros r v [= <-] Hv. congruence.
Qed.

(** *** Content-Security-Policy and X-Frame-Options *)

Lemma merge_Some http equiv :
  truthy_policy http || truthy_policy equiv = true →
  ∃ csp, merge http equiv = Some csp ∧ csp ≠ ∅.
Proof.
  unfold merge. intros Hany.
  destruct (truthy_policy http) eqn:Hh, (truthy_policy equiv) eqn:He;
    try done; cbn [andb].
  - destruct http as [h|]; [|done]. destruct equiv as [e|]; [|done].
    eexists. split; [done|]. simpl.
    apply bool_decide_eq_true in Hh.
    destruct (map_choose h Hh) as (k & v & Hk).
    intros Hempty.
    assert (is_Some ((set_to_map
       (λ k, (k, union (default [] (h !! k)) (default [] (e !! k))))
       (dom h ∪ dom e : gset string) : policy) !! k)) as [w Hw].
    { rewrite lookup_merged. rewrite decide_True; [done|].
      apply elem_of_union_l, elem_of_dom. eauto. }
    rewrite Hempty, lookup_empty in Hw. done.
  - destruct http as [h|]; [|done]. exists h. split; [done|].
    by apply bool_decide_eq_true in Hh.
  - destruct equiv as [e|]; [|done]. exists e. split; [done|].
    by apply bool_decide_eq_true in He.
Qed.

Lemma merged_policy_nonempty response csp :
  merged_policy response = Some csp → csp ≠ ∅.
Proof.
  unfold merged_policy.
  destruct (parse_headers response) as [[http equiv]|]; [|done].
  destruct (truthy_policy http || truthy_policy equiv) eqn:Hany; [|done].
  destruct (merge_Some _ _ Hany) as (csp' & -> & Hne). by intros [= <-].
Qed.

(** A policy that fails to parse is caught by the bare [except]. *)
Lemma csp_invalid_on_parse_failure reqs expectation e :
  parse_headers (responses_auto reqs) = Raise e →
  content_security_policy urlparse_scheme reqs expectation
  = Output None expectation false "csp-header-invalid".
Proof. unfold content_security_policy. by intros ->. Qed.

(** The analyzer on a response whose policies parse and merge. *)
Lemma csp_eval_merged reqs expectation csp :
  merged_policy (responses_auto reqs) = Some csp →
  content_security_policy urlparse_scheme reqs expectation
  = let rc := classify urlparse_scheme (url (responses_auto reqs)) csp in
    Output
      (Some (if str_len rc.2 <? 32768 then rc.2 else ∅)) expectation
      (bool_decide
         (rc.1 ∈ [expectation;
                  "csp-implemented-with-no-unsafe-default-src-none";
                  "csp-implemented-with-unsafe-inline-in-style-src-only"]))
      rc.1.
Proof.
  unfold merged_policy, content_security_policy.
  destruct (parse_headers (responses_auto reqs)) as [[http equiv]|]; [|done].
  destruct (truthy_policy http || truthy_policy equiv) eqn:Hany; [|done].
  intros ->. cbn [negb]. rewrite andb_false_r. cbn [default from_option id].
  by destruct (classify _ _ csp).
Qed.

(** The removal of 'unsafe-inline' keeps every directive in place. *)
Lemma classify_keeps_directives u csp k :
  is_Some ((classify urlparse_scheme u csp).2 !! k) ↔ is_Some (csp !! k).
Proof.
  unfold classify.
  destruct (existsb hash_or_nonce (deref csp (get_src csp "script-src"))
            && mem "'unsafe-inline'" (deref csp (get_src csp "script-src")));
    [|done].
  unfold remove_in_place. destruct (get_src csp "script-src"); [|done].
  cbn [snd]. rewrite lookup_alter. case_decide; [subst|done].
  by rewrite <- !not_eq_None_Some, fmap_None.
Qed.

(** C8, as the code has it. When the merged policy has a frame-ancestors
    directive and the policy the analyzer reports takes fewer than 32768
    characters to print, x_frame_options returns
    x-frame-options-implemented-via-csp with pass true, whatever the
    X-Frame-Options header. *)
Theorem xfo_implemented_via_csp reqs expectation csp :
  merged_policy (responses_auto reqs) = Some csp →
  is_Some (csp !! "frame-ancestors") →
  str_len (classify urlparse_scheme (url (responses_auto reqs)) csp).2
  < 32768 →
  result (x_frame_options urlparse_scheme reqs expectation) = "x-frame-options-implemented-via-csp"
  ∧ pass (x_frame_options urlparse_scheme reqs expectation) = true.
Proof.
  intros Hm Hfa Hlen. unfold x_frame_options.
  rewrite (csp_eval_merged _ _ _ Hm). cbv zeta. cbn [data].
  apply Z.ltb_lt in Hlen. rewrite Hlen.
  apply (classify_keeps_directives (url (responses_auto reqs))) in Hfa.
  assert ((classify urlparse_scheme (url (responses_auto reqs)) csp).2 ≠ ∅)
    as Hne.
  { intros E. rewrite E, lookup_empty in Hfa. by destruct Hfa. }
  rewrite (bool_decide_eq_true_2 _ Hne), (bool_decide_eq_true_2 _ Hfa).
  cbn [andb].
  by destruct (header (responses_auto reqs) XFO).
Qed.

(** *** What the analyzers change *)

Lemma backfill_name c : name (backfill c) = name c.
Proof. unfold backfill. by destruct (httponly c). Qed.

Lemma backfill_idem c : backfill (backfill c) = backfill c.
Proof. unfold backfill. destruct (httponly c) eqn:E; [by rewrite E|done]. Qed.

Lemma del_cookie_backfill n jar :
  del_cookie n (backfill <$> jar) = backfill <$> del_cookie n jar.
Proof.
  unfold del_cookie. induction jar as [|c jar IH]; [done|].
  rewrite fmap_cons, !filter_cons, backfill_name.
  case_decide; by rewrite ?fmap_cons, IH.
Qed.

Lemma del_cookie_idem n jar : del_cookie n (del_cookie n jar) = del_cookie n jar.
Proof.
  unfold del_cookie. induction jar as [|c jar IH]; [done|].
  rewrite !filter_cons. case_decide; [|done].
  rewrite filter_cons. by rewrite decide_True, IH.
Qed.

Lemma del_cookie_Exists n jar :
  Exists (λ c, name c ≠ n) jar → del_cookie n jar ≠ [].
Proof.
  unfold del_cookie. induction 1 as [c jar Hc|c jar _ IH].
  - by rewrite filter_cons_True.
  - rewrite filter_cons. by case_decide.
Qed.

(** Running [cookies] on the bundle a first run left behind. *)
Lemma cookies_again reqs expectation :
  session_cookies reqs = [] ∨
  Exists (λ c, name c ≠ "__cfduid") (session_cookies reqs) →
  cookies urlparse_netloc is_hsts_preloaded only_if_worse (cookies urlparse_netloc is_hsts_preloaded only_if_worse reqs expectation).2 expectation
  = cookies urlparse_netloc is_hsts_preloaded only_if_worse reqs expectation.
Proof.
  intros Hjar. unfold cookies at 2 3.
  destruct (session_cookies reqs) as [|c jar] eqn:Hs.
  { cbn [snd]. unfold cookies. by rewrite Hs. }
  destruct Hjar as [?|Hex]; [done|].
  apply (del_cookie_Exists "__cfduid") in Hex.
  set (session := backfill <$> del_cookie "__cfduid" (c :: jar)).
  assert (session ≠ []) as Hne.
  { unfold session. by destruct (del_cookie "__cfduid" (c :: jar)). }
  assert (backfill <$> del_cookie "__cfduid" session = session) as Hfix.
  { unfold session. rewrite del_cookie_backfill, del_cookie_idem.
    rewrite <- list_fmap_compose. apply list_fmap_ext.
    intros _ x _. apply backfill_idem. }
  destruct (foldl _ _ session) as [jar' res] eqn:Hfold. cbn [snd].
  unfold cookies. cbn [session_cookies set_session_cookies].
  destruct session as [|c' session'] eqn:Hsess; [done|].
  rewrite Hfix.
  change (strict_transport_security urlparse_netloc is_hsts_preloaded
            (set_session_cookies (c' :: session') reqs))
    with (strict_transport_security urlparse_netloc is_hsts_preloaded reqs).
  by rewrite Hfold.
Qed.

(** The bundle as [cookies] leaves it. *)
Lemma cookies_state reqs expectation :
  (cookies urlparse_netloc is_hsts_preloaded only_if_worse reqs expectation).2
  = match session_cookies reqs with
    | [] => reqs
    | _ => set_session_cookies
             (backfill <$> del_cookie "__cfduid" (session_cookies reqs)) reqs
    end.
Proof.
  unfold cookies. destruct (session_cookies reqs); [done|].
  by destruct (foldl _ _ _).
Qed.

Lemma cookies_state_again reqs expectation :
  (cookies urlparse_netloc is_hsts_preloaded only_if_worse (cookies urlparse_netloc is_hsts_preloaded only_if_worse reqs expectation).2 expectation).2
  = (cookies urlparse_netloc is_hsts_preloaded only_if_worse reqs expectation).2.
Proof.
  rewrite (cookies_state reqs).
  destruct (session_cookies reqs) as [|c jar] eqn:Hs.
  { by rewrite cookies_state, Hs. }
  rewrite cookies_state. cbn [session_cookies set_session_cookies].
  destruct (backfill <$> del_cookie "__cfduid" (c :: jar))
    as [|c' jar'] eqn:Hd; [done|].
  rewrite <- Hd at 1. rewrite del_cookie_backfill, del_cookie_idem.
  rewrite <- list_fmap_compose.
  rewrite (list_fmap_ext (backfill ∘ backfill) backfill)
    by (intros _ x _; apply backfill_idem).
  by rewrite Hd.
Qed.

(** C9, as the code has it. Every analyzer but cookies leaves the request
    bundle as it found it.  cookies leaves the responses alone but, when the
    jar is not empty, deletes the __cfduid cookies from it and sets httponly
    on the cookies that stay; a second run changes nothing more, and returns
    what the first returned whenever the jar was empty or held a cookie
    other than __cfduid. *)
Theorem analyzers_frame a reqs expectation :
  responses_auto (run urlparse_scheme urlparse_netloc is_hsts_preloaded is_hpkp_preloaded only_if_worse a reqs expectation).2 = responses_auto reqs
  ∧ responses_https (run urlparse_scheme urlparse_netloc is_hsts_preloaded is_hpkp_preloaded only_if_worse a reqs expectation).2 = responses_https reqs
  ∧ (a ≠ Cookies → (run urlparse_scheme urlparse_netloc is_hsts_preloaded is_hpkp_preloaded only_if_worse a reqs expectation).2 = reqs)
  ∧ (a = Cookies →
     session_cookies (run urlparse_scheme urlparse_netloc is_hsts_preloaded is_hpkp_preloaded only_if_worse a reqs expectation).2
     = match session_cookies reqs with
       | [] => []
       | _ => backfill <$> del_cookie "__cfduid" (session_cookies reqs)
       end)
  ∧ (run urlparse_scheme urlparse_netloc is_hsts_preloaded is_hpkp_preloaded only_if_worse a (run urlparse_scheme urlparse_netloc is_hsts_preloaded is_hpkp_preloaded only_if_worse a reqs expectation).2 expectation).2
    = (run urlparse_scheme urlparse_netloc is_hsts_preloaded is_hpkp_preloaded only_if_worse a reqs expectation).2
  ∧ (a ≠ Cookies ∨ session_cookies reqs = []
     ∨ Exists (λ c, name c ≠ "__cfduid") (session_cookies reqs) →
     (run urlparse_scheme urlparse_netloc is_hsts_preloaded is_hpkp_preloaded only_if_worse a (run urlparse_scheme urlparse_netloc is_hsts_preloaded is_hpkp_preloaded only_if_worse a reqs expectation).2 expectation).1
     = (run urlparse_scheme urlparse_netloc is_hsts_preloaded is_hpkp_preloaded only_if_worse a reqs expectation).1).
Proof.
  destruct a; try (by split_and!).
  cbn [run].
  assert (∀ r, (let '(o, reqs') := cookies urlparse_netloc is_hsts_preloaded only_if_worse r expectation in
                (ScoredJar o, reqs')).2 = (cookies urlparse_netloc is_hsts_preloaded only_if_worse r expectation).2)
    as Hsnd by (intros r; by destruct (cookies urlparse_netloc is_hsts_preloaded only_if_worse r expectation)).
  assert (∀ r, (let '(o, reqs') := cookies urlparse_netloc is_hsts_preloaded only_if_worse r expectation in
                (ScoredJar o, reqs')).1
               = ScoredJar (cookies urlparse_netloc is_hsts_preloaded only_if_worse r expectation).1)
    as Hfst by (intros r; by destruct (cookies urlparse_netloc is_hsts_preloaded only_if_worse r expectation)).
  rewrite !Hsnd, !Hfst.
  split_and!.
  - rewrite cookies_state. by destruct (session_cookies reqs).
  - rewrite cookies_state. by destruct (session_cookies reqs).
  - done.
  - intros _. rewrite cookies_state. by destruct (session_cookies reqs) eqn:E.
  - apply cookies_state_again.
  - intros [?|Hjar]; [done|]. by rewrite (cookies_again _ _ Hjar).
Qed.

(** *** The decision chain *)

Lemma truthy_true_iff {A} (l : list A) : truthy l = true ↔ l ≠ [].
Proof. by destruct l. Qed.

Lemma existsb_elem_of {A} (f : A → bool) (l : list A) :
  existsb f l = true ↔ ∃ x, x ∈ l ∧ f x = true.
Proof.
  rewrite existsb_exists. by setoid_rewrite <- list_elem_of_In.
Qed.

Lemma bool_eq_iff (a b : bool) : (a = true ↔ b = true) → a = b.
Proof. destruct a, b; intuition congruence. Qed.

Lemma mem_true_iff x (s : list string) : mem x s = true ↔ x ∈ s.
Proof. unfold mem. apply bool_decide_eq_true. Qed.

Lemma intersects_true_iff (s l : list string) :
  intersects s l = true ↔ ∃ x, x ∈ s ∧ x ∈ l.
Proof.
  unfold intersects. rewrite existsb_elem_of.
  by setoid_rewrite mem_true_iff.
Qed.

Lemma truthy_intersection (s l : list string) :
  truthy (intersection s l) = intersects s l.
Proof.
  drop_env.
  apply bool_eq_iff. rewrite truthy_true_iff, intersects_true_iff.
  unfold intersection. split.
  - intros Hne. destruct (filter _ s) as [|x rest] eqn:Hf; [done|].
    assert (x ∈ filter (λ x, x ∈ l) s) as Hx by (rewrite Hf; left).
    apply list_elem_of_filter in Hx. naive_solver.
  - intros (x & Hs & Hl) Hnil.
    assert (x ∈ filter (λ x, x ∈ l) s) as Hx
      by (apply list_elem_of_filter; done).
    rewrite Hnil in Hx. by apply elem_of_nil in Hx.
Qed.

Lemma truthy_filter {A} (f : A → bool) (l : list A) :
  truthy (List.filter f l) = existsb f l.
Proof.
  induction l as [|x l IH]; [done|]. simpl. by destruct (f x).
Qed.

Lemma elem_of_remove x y (s : list string) :
  x ∈ remove y s ↔ x ∈ s ∧ x ≠ y.
Proof. drop_env. unfold remove. rewrite list_elem_of_filter. tauto. Qed.

Lemma remove_absent y (s : list string) : y ∉ s → remove y s = s.
Proof.
  unfold remove. induction s as [|x s IH]; [done|].
  rewrite not_elem_of_cons. intros [Hne Hs].
  rewrite filter_cons_True by done. by rewrite IH.
Qed.

Lemma elem_of_all_values (csp : policy) x :
  x ∈ all_values csp ↔ ∃ k v, csp !! k = Some v ∧ x ∈ v.
Proof.
  unfold all_values.
  apply (map_fold_weak_ind
           (λ acc (m : policy), x ∈ acc ↔ ∃ k v, m !! k = Some v ∧ x ∈ v)).
  - rewrite elem_of_nil. split; [done|].
    intros (k & v & Hk & _). by rewrite lookup_empty in Hk.
  - intros k v m acc Hfresh IH. unfold union.
    rewrite list_elem_of_union, IH. split.
    + intros [Hx|(k' & v' & Hk' & Hx)].
      * exists k, v. by rewrite lookup_insert_eq.
      * exists k', v'. split; [|done].
        rewrite lookup_insert_ne; [done|]. intros ->. congruence.
    + intros (k' & v' & Hk' & Hx).
      destruct (decide (k = k')) as [->|Hne].
      * rewrite lookup_insert_eq in Hk'. left. congruence.
      * rewrite lookup_insert_ne in Hk' by done. right. eauto.
Qed.

(** The six-way choice both chains end in, on the outcome of their five
    tests. *)
Definition verdict (t1 t2 t3 t4 t5 : bool) : string :=
  if t1 then "csp-implemented-with-unsafe-inline"
  else if t2 then "csp-implemented-with-insecure-scheme"
  else if t3 then "csp-implemented-with-unsafe-eval"
  else if t4 then "csp-implemented-with-unsafe-inline-in-style-src-only"
  else if t5 then "csp-implemented-with-no-unsafe-default-src-none"
  else "csp-implemented-with-no-unsafe".

Definition default_src_none (csp : policy) : bool :=
  match csp !! "default-src" with
  | Some d => set_eq d ["'none'"]
  | None => false
  end.

(** The policy and the three sets as the analyzer tests them. *)
Definition after_removal (csp : policy) : policy * src :=
  if existsb hash_or_nonce (deref csp (get_src csp "script-src"))
     && mem "'unsafe-inline'" (deref csp (get_src csp "script-src"))
  then remove_in_place "'unsafe-inline'" csp (get_src csp "script-src")
  else (csp, get_src csp "script-src").

Lemma classify_tests u csp :
  classify urlparse_scheme u csp
  = let csp' := (after_removal csp).1 in
    let object_src := deref csp' (get_src csp "object-src") in
    let script_src := deref csp' (after_removal csp).2 in
    let style_src := deref csp' (get_src csp "style-src") in
    (verdict
       (truthy (intersection script_src (dangerously_broad ++ unsafe_inline))
        || truthy (intersection object_src dangerously_broad))
       (bool_decide (urlparse_scheme u = "https")
        && truthy (List.filter (λ d, contains d "http:") (all_values csp')))
       (truthy (intersection (union script_src style_src) ["'unsafe-eval'"]))
       (truthy (intersection style_src (dangerously_broad ++ unsafe_inline)))
       (default_src_none csp'),
     csp').
Proof.
  unfold classify, after_removal.
  by destruct (existsb hash_or_nonce _ && mem _ _);
    [destruct (remove_in_place _ _ _)|].
Qed.

Lemma described_chain_tests scheme csp :
  described_chain scheme csp
  = let object_src := effective csp "object-src" in
    let script_src :=
      if existsb hash_or_nonce (effective csp "script-src")
      then remove "'unsafe-inline'" (effective csp "script-src")
      else effective csp "script-src" in
    let style_src := effective csp "style-src" in
    verdict
      (intersects script_src (dangerously_broad ++ unsafe_inline)
       || intersects object_src dangerously_broad)
      (bool_decide (scheme = "https")
       && existsb (λ d, contains d "http:") (all_values csp))
      (mem "'unsafe-eval'" script_src || mem "'unsafe-eval'" style_src)
      (intersects style_src (dangerously_broad ++ unsafe_inline))
      (default_src_none csp).
Proof. reflexivity. Qed.

Lemma truthy_opt_wf (csp : policy) k :
  policy_wf csp → truthy_opt (csp !! k) = bool_decide (is_Some (csp !! k)).
Proof.
  intros Hwf. destruct (csp !! k) as [v|] eqn:Hk; simpl.
  - specialize (Hwf k v Hk). by destruct v.
  - done.
Qed.

Lemma deref_get_src (csp : policy) k :
  policy_wf csp → deref csp (get_src csp k) = effective csp k.
Proof.
  intros Hwf. unfold get_src, effective. rewrite !truthy_opt_wf by done.
  destruct (csp !! k) as [v|] eqn:Hk.
  - rewrite bool_decide_eq_true_2 by eauto. simpl. by rewrite Hk.
  - rewrite bool_decide_eq_false_2 by (by intros [? ?]).
    destruct (csp !! "default-src") as [d|] eqn:Hd.
    + rewrite bool_decide_eq_true_2 by eauto. simpl. by rewrite Hd.
    + by rewrite bool_decide_eq_false_2 by (by intros [? ?]).
Qed.

Definition UNSAFE_INLINE : string := "'unsafe-inline'".

Lemma after_removal_spec (csp : policy) :
  policy_wf csp →
  (existsb hash_or_nonce (effective csp "script-src")
   && mem UNSAFE_INLINE (effective csp "script-src") = false
   ∧ after_removal csp = (csp, get_src csp "script-src"))
  ∨ (existsb hash_or_nonce (effective csp "script-src") = true
     ∧ UNSAFE_INLINE ∈ effective csp "script-src"
     ∧ ∃ k v, csp !! k = Some v
              ∧ effective csp "script-src" = v
              ∧ (k = "script-src"
                 ∨ k = "default-src" ∧ csp !! "script-src" = None)
              ∧ after_removal csp
                = (alter (remove UNSAFE_INLINE) k csp, Entry k)).
Proof.
  intros Hwf. unfold after_removal. rewrite deref_get_src by done.
  fold UNSAFE_INLINE.
  destruct (existsb hash_or_nonce (effective csp "script-src")
            && mem UNSAFE_INLINE (effective csp "script-src")) eqn:Hc;
    [right|by left].
  apply andb_true_iff in Hc as [Hh Hm]. apply mem_true_iff in Hm.
  split_and!; [done..|].
  unfold get_src, effective in *. rewrite !truthy_opt_wf by done.
  destruct (csp !! "script-src") as [v|] eqn:Hs.
  { exists "script-src", v. rewrite bool_decide_eq_true_2 by eauto.
    split_and!; [done|done|by left|done]. }
  rewrite bool_decide_eq_false_2 by (by intros [? ?]).
  destruct (csp !! "default-src") as [d|] eqn:Hd.
  { exists "default-src", d. rewrite bool_decide_eq_true_2 by eauto.
    split_and!; [done|done|by right|done]. }
  done.
Qed.

Lemma truthy_unsafe_eval (a b : list string) x :
  truthy (intersection (union a b) [x]) = mem x a || mem x b.
Proof.
  drop_env.
  apply bool_eq_iff. rewrite truthy_intersection, intersects_true_iff.
  rewrite orb_true_iff, !mem_true_iff. unfold union.
  setoid_rewrite list_elem_of_union. setoid_rewrite list_elem_of_singleton.
  naive_solver.
Qed.

Lemma intersects_remove (s l : list string) y :
  y ∉ l → intersects (remove y s) l = intersects s l.
Proof.
  drop_env.
  intros Hy. apply bool_eq_iff. rewrite !intersects_true_iff.
  setoid_rewrite elem_of_remove. naive_solver.
Qed.

Lemma get_src_Entry (csp : policy) d k :
  policy_wf csp →
  get_src csp d = Entry k →
  is_Some (csp !! k)
  ∧ (k = d ∨ (k = "default-src" ∧ csp !! d = None)).
Proof.
  intros Hwf. unfold get_src. rewrite !truthy_opt_wf by done.
  destruct (csp !! d) as [v|] eqn:Hd.
  - rewrite bool_decide_eq_true_2 by eauto. intros [= <-]. split; eauto.
  - rewrite bool_decide_eq_false_2 by (by intros [? ?]).
    case_bool_decide; [|done]. intros [= <-]. split; eauto.
Qed.

Lemma deref_alter (csp : policy) f k d :
  policy_wf csp →
  (get_src csp d = Entry k →
   deref (alter f k csp) (get_src csp d) = f (effective csp d))
  ∧ (get_src csp d ≠ Entry k →
     deref (alter f k csp) (get_src csp d) = effective csp d).
Proof.
  intros Hwf. rewrite <- (deref_get_src csp d) by done.
  destruct (get_src csp d) as [k'|vals] eqn:Hg; simpl.
  - rewrite lookup_alter. split.
    + intros [= ->]. rewrite decide_True by done.
      apply get_src_Entry in Hg as [[v Hv] _]; [|done]. by rewrite Hv.
    + intros Hne. rewrite decide_False; [done|]. congruence.
  - split; [done|done].
Qed.

Lemma all_values_alter (csp : policy) k :
  existsb (λ d, contains d "http:")
    (all_values (alter (remove UNSAFE_INLINE) k csp))
  = existsb (λ d, contains d "http:") (all_values csp).
Proof.
  apply bool_eq_iff. rewrite !existsb_elem_of.
  setoid_rewrite elem_of_all_values. split.
  - intros (x & (k' & v & Hk & Hx) & Hc). exists x. split; [|done].
    rewrite lookup_alter in Hk. case_decide; [subst|by eauto].
    destruct (csp !! k') as [w|] eqn:Hw; [|done].
    injection Hk as <-. apply elem_of_remove in Hx as [Hx _]. eauto.
  - intros (x & (k' & v & Hk & Hx) & Hc).
    exists x. split; [|done].
    destruct (decide (k = k')) as [->|Hne].
    + exists k', (remove UNSAFE_INLINE v). rewrite lookup_alter.
      rewrite decide_True by done. rewrite Hk. split; [done|].
      apply elem_of_remove. split; [done|]. by intros ->.
    + exists k', v. rewrite lookup_alter. by rewrite decide_False.
Qed.

Lemma set_eq_none_false (d : list string) x :
  x ∈ d → x ≠ "'none'" → set_eq d ["'none'"] = false.
Proof.
  intros Hx Hne. unfold set_eq. apply andb_false_iff. left.
  apply not_true_is_false. rewrite forallb_forall. intros Hall.
  apply list_elem_of_In in Hx. specialize (Hall x Hx).
  apply mem_true_iff, list_elem_of_singleton in Hall. done.
Qed.

(** [classify] follows the described chain on every policy with no empty
    source set, save those where script_src and style_src are one set
    object that loses 'unsafe-inline'. *)
Lemma classify_follows_described_chain u (csp : policy) :
  policy_wf csp →
  ¬ shared_removal csp →
  (classify urlparse_scheme u csp).1 = described_chain (urlparse_scheme u) csp.
Proof.
  intros Hwf Hns. rewrite classify_tests, described_chain_tests.
  cbv zeta. cbn [fst]. fold UNSAFE_INLINE.
  rewrite truthy_unsafe_eval, !truthy_intersection, truthy_filter.
  destruct (after_removal_spec csp Hwf)
    as [[Hc ->]|(Hh & Hin & k & v & Hk & Hv & Hwhich & ->)]; cbn [fst snd].
  - rewrite !deref_get_src by done.
    destruct (existsb hash_or_nonce (effective csp "script-src")) eqn:Hh;
      [|done].
    cbn [andb] in Hc. rewrite remove_absent; [done|].
    intros Hin. apply mem_true_iff in Hin. congruence.
  - rewrite Hh, all_values_alter.
    assert (deref (alter (remove UNSAFE_INLINE) k csp) (Entry k)
            = remove UNSAFE_INLINE (effective csp "script-src")) as ->.
    { simpl. rewrite lookup_alter, decide_True by done.
      by rewrite Hk, Hv. }
    assert (get_src csp "style-src" ≠ Entry k) as Hstyle.
    { intros Hg. apply get_src_Entry in Hg; [|done].
      destruct Hg as [_ [->|[-> Hnone]]].
      - by destruct Hwhich as [?|[? _]].
      - destruct Hwhich as [?|[_ Hsnone]]; [done|].
        apply Hns. split_and!; [done..|].
        exists v. by rewrite <- Hv at 2 3. }
    rewrite (proj2 (deref_alter csp (remove UNSAFE_INLINE) k "style-src" Hwf)
               Hstyle).
    assert (intersects
              (deref (alter (remove UNSAFE_INLINE) k csp)
                 (get_src csp "object-src")) dangerously_broad
            = intersects (effective csp "object-src") dangerously_broad) as ->.
    { destruct (deref_alter csp (remove UNSAFE_INLINE) k "object-src" Hwf)
        as [Hsame Hother].
      destruct (get_src csp "object-src") as [k'|vals] eqn:Hg.
      - destruct (decide (k' = k)) as [->|Hne].
        + rewrite Hsame by done. apply intersects_remove.
          unfold dangerously_broad, UNSAFE_INLINE.
          rewrite !not_elem_of_cons. split_and!; try done. apply not_elem_of_nil.
        + rewrite Hother; [done|]. congruence.
      - by rewrite Hother. }
    assert (default_src_none (alter (remove UNSAFE_INLINE) k csp)
            = default_src_none csp) as ->; [|done].
    unfold default_src_none. rewrite lookup_alter.
    case_decide as Hkd; [subst k|done]. rewrite Hk. simpl.
    apply existsb_elem_of in Hh as (h & Hhin & Hhash). rewrite Hv in Hhin, Hin.
    rewrite (set_eq_none_false v h) by (done || by intros ->).
    apply (set_eq_none_false _ h); [|by intros ->].
    apply elem_of_remove. split; [done|]. by intros ->.
Qed.

(** *** The parser *)

Lemma lstrip_head s c t : lstrip s = String c t → is_space c = false.
Proof.
  induction s as [|a s IH]; [done|]. simpl.
  destruct (is_space a) eqn:Ha; [done|]. by intros [= <- <-].
Qed.

Lemma rstrip_head c s :
  is_space c = false → ∃ t, rstrip (String c s) = String c t.
Proof.
  intros Hc. simpl. rewrite Hc. destruct (rstrip s); eauto.
Qed.

(** A stripped string is never blank: the [isspace] test of the parser
    cannot be the one that fails. *)
Lemma isspace_strip s : isspace (strip s) = false.
Proof.
  unfold strip. destruct (lstrip s) as [|c t] eqn:Hl; [done|].
  pose proof (lstrip_head _ _ _ Hl) as Hc.
  destruct (rstrip_head c t Hc) as [t' ->]. simpl. by rewrite Hc.
Qed.

Lemma split_nonempty c s : is_space c = false → split (String c s) ≠ [].
Proof.
  intros Hc. simpl. rewrite Hc. destruct s as [|c' s']; [done|].
  destruct (is_space c'); [done|]. by destruct (split (String c' s')).
Qed.

Lemma split_max1_cases s :
  split_max1 s = []
  ∨ (∃ w, split_max1 s = [w])
  ∨ (∃ w r, split_max1 s = [w; r] ∧ split r ≠ []).
Proof.
  unfold split_max1. destruct (lstrip s) as [|c t]; [by left|].
  destruct (break_word (String c t)) as [w r].
  destruct (lstrip r) as [|c' t'] eqn:Hr; [right; left; eauto|].
  right. right. exists w, (String c' t'). split; [done|].
  apply split_nonempty. by apply lstrip_head in Hr.
Qed.

Lemma set_of_nonempty (l : list string) : l ≠ [] → set_of l ≠ [].
Proof.
  destruct l as [|x l]; [done|]. intros _ Hnil.
  assert (x ∈ set_of (x :: l)) as Hx
    by (apply elem_of_remove_dups; left).
  rewrite Hnil in Hx. by apply elem_of_nil in Hx.
Qed.

Lemma entry_values_nonempty s :
  entry_values (split_max1 s) ≠ [] ∧ NoDup (entry_values (split_max1 s)).
Proof.
  unfold entry_values.
  destruct (split_max1_cases s) as [->|[[w ->]|(w & r & -> & Hr)]]; simpl.
  - split; [done|]. apply NoDup_singleton.
  - split; [done|]. apply NoDup_singleton.
  - split; [|apply NoDup_remove_dups].
    apply set_of_nonempty. by destruct (split r).
Qed.

Lemma parse_entry_spec (csp : policy) entry :
  parse_entry csp entry
  = match head entry with
    | None => Raise IndexError
    | Some directive =>
        if bool_decide (is_Some (csp !! directive)) then Raise ValueError
        else Ok (<[directive := entry_values entry]> csp)
    end.
Proof. by destruct entry. Qed.

(** The loop of the parser succeeds exactly when no entry is empty and no
    directive name comes twice, or is in the dictionary already. *)
Lemma parse_entries_Ok (entries : list (list string)) (csp : policy) :
  (∃ csp', parse_entries csp entries = Ok csp')
  ↔ ([] ∉ entries)
    ∧ NoDup (omap head entries)
    ∧ ∀ n, n ∈ omap head entries → csp !! n = None.
Proof.
  revert csp. induction entries as [|entry entries IH]; intros csp.
  { simpl. split; [intros _|by eauto].
    split_and!; [apply not_elem_of_nil|constructor|].
    intros n Hn. by apply elem_of_nil in Hn. }
  cbn [parse_entries]. rewrite parse_entry_spec.
  destruct entry as [|d rest]; cbn [head omap list_omap].
  { split; [by intros [? ?]|]. intros (Hin & _). destruct Hin. left. }
  change (omap head ((d :: rest) :: entries)) with (d :: omap head entries).
  case_bool_decide as Hd.
  { split; [by intros [? ?]|]. intros (_ & _ & Hfree).
    destruct Hd as [v Hv]. rewrite Hfree in Hv; [done|left]. }
  rewrite IH. rewrite not_elem_of_cons, NoDup_cons.
  assert (csp !! d = None) as Hnone.
  { destruct (csp !! d) eqn:E; [|done]. destruct Hd. eauto. }
  split.
  - intros (Hin & Hnd & Hfree). split_and!; [done|done| |done|].
    + intros Hdin. specialize (Hfree d Hdin).
      by rewrite lookup_insert_eq in Hfree.
    + intros n [->|Hn]%elem_of_cons; [done|].
      specialize (Hfree n Hn).
      destruct (decide (d = n)) as [->|Hne].
      * by rewrite lookup_insert_eq in Hfree.
      * by rewrite lookup_insert_ne in Hfree.
  - intros ([_ Hin] & [Hdin Hnd] & Hfree). split_and!; [done..|].
    intros n Hn. rewrite lookup_insert_ne; [|by intros ->].
    apply Hfree. by right.
Qed.

(** What a successful run of the loop leaves in the dictionary. *)
Lemma parse_entries_lookup (entries : list (list string)) (csp csp' : policy) d :
  parse_entries csp entries = Ok csp' →
  csp' !! d
  = match List.find (λ entry, bool_decide (head entry = Some d)) entries with
    | Some entry => Some (entry_values entry)
    | None => csp !! d
    end.
Proof.
  revert csp. induction entries as [|entry entries IH]; intros csp.
  { by intros [= ->]. }
  intros Hok.
  assert (∃ x, parse_entries csp (entry :: entries) = Ok x) as Hex by eauto.
  apply parse_entries_Ok in Hex as (Hin & Hnd & Hfree).
  cbn [parse_entries] in Hok. rewrite parse_entry_spec in Hok.
  destruct entry as [|n rest]; [done|]. cbn [head] in Hok.
  case_bool_decide; [done|].
  rewrite (IH _ Hok). cbn [List.find head].
  change (omap head ((n :: rest) :: entries)) with (n :: omap head entries) in Hnd.
  apply NoDup_cons in Hnd as [Hn Hnd].
  case_bool_decide as Heq.
  - injection Heq as ->.
    destruct (List.find _ entries) as [e|] eqn:Hf.
    + exfalso. apply find_some in Hf as [He Hh].
      apply bool_decide_eq_true in Hh. apply Hn.
      apply list_elem_of_omap. exists e. split; [|done].
      by apply list_elem_of_In.
    + by rewrite lookup_insert_eq.
  - destruct (List.find _ entries); [done|].
    rewrite lookup_insert_ne; [done|]. congruence.
Qed.

(** X1. [__parse_csp] raises exactly when the cleaned string has fewer than
    six characters, or a segment between semicolons holds blanks only, or a
    directive name comes twice. *)
Theorem parse_csp_raises_iff csp_string :
  (∃ e, __parse_csp csp_string = Raise e)
  ↔ len (clean csp_string) < 6
    ∨ [] ∈ entries_of (clean csp_string)
    ∨ repeats_directive csp_string.
Proof.
  unfold __parse_csp, repeats_directive, directive_names, clean.
  rewrite isspace_strip, orb_false_r. fold (clean csp_string).
  destruct (len (clean csp_string) <? 6) eqn:Hlen.
  { apply Z.ltb_lt in Hlen. split; eauto. }
  apply Z.ltb_ge in Hlen.
  pose proof (parse_entries_Ok (entries_of (clean csp_string)) ∅) as Hok.
  destruct (parse_entries ∅ (entries_of (clean csp_string))) as [csp|e] eqn:Hp.
  - split; [by intros [? ?]|].
    destruct (proj1 Hok) as (Hin & Hnd & _); [by eauto|].
    intros [?|[?|?]]; [lia|done|done].
  - split; [intros _|by eauto].
    destruct (decide ([] ∈ entries_of (clean csp_string))); [by auto|].
    right. right. intros Hnd.
    destruct (proj2 Hok) as [? ?]; [|done].
    split_and!; [done..|]. intros. apply lookup_empty.
Qed.

Lemma parse_csp_Ok csp_string (csp : policy) :
  __parse_csp csp_string = Ok csp →
  (∀ k, csp !! k
        = entry_values
            <$> List.find (λ entry, bool_decide (head entry = Some k))
                  (entries_of (clean csp_string)))
  ∧ (∀ k v, csp !! k = Some v →
            ∃ segment, v = entry_values (split_max1 segment)).
Proof.
  unfold __parse_csp.
  destruct (_ || _); [done|]. intros Hok.
  assert (∀ k, csp !! k
               = entry_values
                   <$> List.find (λ entry, bool_decide (head entry = Some k))
                         (entries_of (clean csp_string))) as Hlook.
  { intros k. rewrite (parse_entries_lookup _ _ _ k Hok), lookup_empty.
    by destruct (List.find _ _). }
  split; [done|].
  intros k v. rewrite Hlook.
  destruct (List.find _ _) as [e|] eqn:Hf; [|done]. intros [= <-].
  apply find_some in Hf as [He _]. apply list_elem_of_In in He.
  unfold entries_of in He. apply list_elem_of_fmap in He as (seg & -> & _).
  eauto.
Qed.

(** X2. In a policy that parses, a directive is there exactly when some
    segment starts with its name, its sources are those of that segment,
    lower-cased, or 'none' when the segment has none; and every source set
    is non-empty and free of duplicates. *)
Theorem parse_csp_lookup csp_string (csp : policy) d :
  __parse_csp csp_string = Ok csp →
  csp !! d
  = (entry_values
       <$> List.find (λ entry, bool_decide (head entry = Some d))
             (entries_of (clean csp_string)))
  ∧ policy_wf csp
  ∧ (∀ k v, csp !! k = Some v → NoDup v).
Proof.
  intros Hok. destruct (parse_csp_Ok _ _ Hok) as [Hlook Hv].
  split_and!; [by rewrite Hlook| |].
  - intros k v Hk. destruct (Hv k v Hk) as [seg ->].
    apply entry_values_nonempty.
  - intros k v Hk. destruct (Hv k v Hk) as [seg ->].
    apply entry_values_nonempty.
Qed.

Lemma parse_if_present_wf value (csp : policy) :
  parse_if_present value = Ok (Some csp) → policy_wf csp.
Proof.
  unfold parse_if_present. destruct value as [csp_string|]; [|done].
  destruct (__parse_csp csp_string) as [csp'|] eqn:Hp; [|done].
  intros [= <-] k v Hk.
  destruct (parse_csp_Ok _ _ Hp) as [_ Hv]. destruct (Hv k v Hk) as [seg ->].
  apply entry_values_nonempty.
Qed.

Lemma merge_wf (http equiv : option policy) (csp : policy) :
  (∀ h, http = Some h → policy_wf h) →
  (∀ e, equiv = Some e → policy_wf e) →
  merge http equiv = Some csp →
  policy_wf csp.
Proof.
  intros Hh He. unfold merge.
  destruct (truthy_policy http && truthy_policy equiv) eqn:Hboth.
  - apply andb_true_iff in Hboth as [H1 H2].
    destruct http as [h|]; [|done]. destruct equiv as [e|]; [|done].
    intros [= <-] k v. cbn [default from_option id]. rewrite lookup_merged.
    case_decide as Hdom; [|done]. intros [= <-].
    apply elem_of_union in Hdom as [Hd|Hd]; apply elem_of_dom in Hd as [w Hw];
      rewrite Hw; cbn [default from_option id].
    + specialize (Hh h eq_refl k w Hw). destruct w as [|x w]; [done|].
      intros Hnil.
      assert (x ∈ union (x :: w) (default [] (e !! k))) as Hx
        by (apply list_elem_of_union; left; left).
      rewrite Hnil in Hx. by apply elem_of_nil in Hx.
    + specialize (He e eq_refl k w Hw). destruct w as [|x w]; [done|].
      intros Hnil.
      assert (x ∈ union (default [] (h !! k)) (x :: w)) as Hx
        by (apply list_elem_of_union; right; left).
      rewrite Hnil in Hx. by apply elem_of_nil in Hx.
  - destruct (truthy_policy http); [intros ->; by apply Hh|].
    intros ->. by apply He.
Qed.

Lemma merged_policy_wf response (csp : policy) :
  merged_policy response = Some csp → policy_wf csp.
Proof.
  unfold merged_policy, parse_headers.
  destruct (parse_if_present (header response CSP)) as [http|] eqn:Hh; [|done].
  destruct (parse_if_present (http_equiv response !! CSP)) as [equiv|] eqn:He;
    [|done].
  destruct (truthy_policy http || truthy_policy equiv); [|done].
  apply merge_wf.
  - intros h ->. by apply (parse_if_present_wf _ _ Hh).
  - intros e ->. by apply (parse_if_present_wf _ _ He).
Qed.

(** X3. On a response whose policies parse and merge to [csp], the result
    of content_security_policy is that of the described chain, unless
    script_src and style_src are one set object that loses
    'unsafe-inline'. *)
Theorem csp_follows_described_chain reqs expectation (csp : policy) :
  merged_policy (responses_auto reqs) = Some csp →
  ¬ shared_removal csp →
  result (content_security_policy urlparse_scheme reqs expectation)
  = described_chain (urlparse_scheme (url (responses_auto reqs))) csp.
Proof.
  intros Hm Hns. rewrite (csp_eval_merged _ _ _ Hm). cbv zeta. cbn [result].
  apply classify_follows_described_chain; [|done].
  by apply (merged_policy_wf (responses_auto reqs)).
Qed.

(** *** Outcomes of content_security_policy *)

Lemma verdict_range t1 t2 t3 t4 t5 :
  verdict t1 t2 t3 t4 t5
  ∈ ["csp-implemented-with-unsafe-inline";
     "csp-implemented-with-insecure-scheme";
     "csp-implemented-with-unsafe-eval";
     "csp-implemented-with-unsafe-inline-in-style-src-only";
     "csp-implemented-with-no-unsafe-default-src-none";
     "csp-implemented-with-no-unsafe"].
Proof.
  unfold verdict. destruct t1, t2, t3, t4, t5; set_solver.
Qed.

(** X4. Without a policy to classify the analyzer returns no data and never
    passes, whatever the expectation: csp-not-implemented when neither the
    header nor the http-equiv tag is there, csp-header-invalid otherwise.
    With one, the result is one of the six codes of the chain and pass holds
    exactly when the result is the expectation or one of the two codes that
    always pass. *)
Theorem csp_outcomes reqs expectation :
  match merged_policy (responses_auto reqs) with
  | None =>
      content_security_policy urlparse_scheme reqs expectation
      = Output None expectation false
          (if bool_decide (header (responses_auto reqs) CSP = None
                           ∧ http_equiv (responses_auto reqs) !! CSP = None)
           then "csp-not-implemented" else "csp-header-invalid")
  | Some csp =>
      is_Some (data (content_security_policy urlparse_scheme reqs expectation))
      ∧ result (content_security_policy urlparse_scheme reqs expectation)
        ∈ ["csp-implemented-with-unsafe-inline";
           "csp-implemented-with-insecure-scheme";
           "csp-implemented-with-unsafe-eval";
           "csp-implemented-with-unsafe-inline-in-style-src-only";
           "csp-implemented-with-no-unsafe-default-src-none";
           "csp-implemented-with-no-unsafe"]
      ∧ (pass (content_security_policy urlparse_scheme reqs expectation) = true
         ↔ result (content_security_policy urlparse_scheme reqs expectation)
           ∈ [expectation;
              "csp-implemented-with-no-unsafe-default-src-none";
              "csp-implemented-with-unsafe-inline-in-style-src-only"])
  end.
Proof.
  destruct (merged_policy (responses_auto reqs)) as [csp|] eqn:Hm.
  - rewrite (csp_eval_merged _ _ _ Hm). cbv zeta. cbn [data result pass].
    split_and!; [by eauto| |apply bool_decide_eq_true].
    rewrite classify_tests. cbv zeta. cbn [fst]. apply verdict_range.
  - unfold merged_policy in Hm. unfold content_security_policy.
    destruct (parse_headers (responses_auto reqs)) as [[http equiv]|x] eqn:Hp.
    + destruct (truthy_policy http || truthy_policy equiv) eqn:Hany.
      { destruct (merge_Some _ _ Hany) as (? & ? & _). congruence. }
      cbn [negb]. rewrite andb_true_r.
      destruct (header (responses_auto reqs) CSP) as [h|],
        (http_equiv (responses_auto reqs) !! CSP) as [e|]; cbn [orb];
        case_bool_decide as Habs; try done; try (by destruct Habs).
      all: try (exfalso; apply Habs; by eauto).
      all: by rewrite ?bool_decide_eq_true_2 by eauto.
    + unfold parse_headers, parse_if_present in Hp.
      case_bool_decide as Habs; [|done].
      destruct Habs as [Hh He]. by rewrite Hh, He in Hp.
Qed.

Lemma after_removal_lookup (csp : policy) k :
  (after_removal csp).1 !! k = csp !! k
  ∨ (after_removal csp).1 !! k = remove UNSAFE_INLINE <$> csp !! k.
Proof.
  unfold after_removal. destruct (_ && _); [|by left].
  unfold remove_in_place. destruct (get_src csp "script-src"); [|by left].
  cbn [fst]. rewrite lookup_alter. case_decide; [subst; by right|by left].
Qed.

(** X5. The policy reported as data is the merged policy, from which at most
    'unsafe-inline' is missing: it has the same directives, every source it
    reports is a source of the merged policy, and every source of the merged
    policy other than 'unsafe-inline' is reported.  A policy that takes
    32768 characters or more to print is reported as the empty
    dictionary. *)
Theorem csp_reported_policy reqs expectation (csp : policy) :
  merged_policy (responses_auto reqs) = Some csp →
  ∃ d reported,
    reported = (classify urlparse_scheme (url (responses_auto reqs)) csp).2
    ∧ data (content_security_policy urlparse_scheme reqs expectation) = Some d
    ∧ (32768 ≤ str_len reported → d = ∅)
    ∧ (str_len reported < 32768 →
       ∀ k,
         (is_Some (d !! k) ↔ is_Some (csp !! k))
         ∧ ∀ x,
             (x ∈ default [] (d !! k) → x ∈ default [] (csp !! k))
             ∧ (x ∈ default [] (csp !! k) → x ≠ UNSAFE_INLINE →
                x ∈ default [] (d !! k))).
Proof.
  drop_env.
  intros Hm. rewrite (csp_eval_merged _ _ _ Hm). cbv zeta. cbn [data].
  eexists _, _. split; [done|]. split; [done|].
  set (reported := (classify urlparse_scheme (url (responses_auto reqs)) csp).2).
  split.
  - intros Hlen. apply Z.ltb_ge in Hlen. by rewrite Hlen.
  - intros Hlen. apply Z.ltb_lt in Hlen. rewrite Hlen. intros k.
    split; [apply classify_keeps_directives|].
    unfold reported. rewrite classify_tests. cbv zeta. cbn [snd].
    intros x.
    destruct (after_removal_lookup csp k) as [->| ->]; [done|].
    destruct (csp !! k) as [v|]; cbn [fmap option_fmap option_map default
                                        from_option id]; [|done].
    rewrite elem_of_remove. tauto.
Qed.

(** *** Strict-Transport-Security with a header that parses *)

Lemma hsts_parameter_flags out parameter out' :
  hsts_parameter out parameter = Some out' →
  Hsts.includeSubDomains out'
  = Hsts.includeSubDomains out || bool_decide (parameter = "includesubdomains")
  ∧ Hsts.preload out'
    = Hsts.preload out || bool_decide (parameter = "preload")
  ∧ Hsts.data out' = Hsts.data out
  ∧ Hsts.expectation out' = Hsts.expectation out
  ∧ Hsts.pass out' = Hsts.pass out
  ∧ Hsts.preloaded out' = Hsts.preloaded out.
Proof.
  unfold hsts_parameter.
  destruct (startswith parameter "max-age=") eqn:Hm.
  - destruct (int _); [|done]. intros [= <-]. cbn.
    assert (parameter ≠ "includesubdomains") by (by intros ->).
    assert (parameter ≠ "preload") by (by intros ->).
    rewrite !bool_decide_eq_false_2 by done. by rewrite !orb_false_r.
  - case_bool_decide as H1.
    + intros [= <-]. subst. cbn. rewrite orb_true_r.
      by rewrite orb_false_r.
    + case_bool_decide as H2; intros [= <-]; cbn.
      * by rewrite orb_true_r, orb_false_r.
      * by rewrite !orb_false_r.
Qed.



(** X7. Without a verified HTTPS response the header is never read: data and
    max-age stay empty and both flags false, and the result is
    hsts-not-implemented-no-https when there is no HTTPS response,
    hsts-invalid-cert when its certificate chain is not verified and its
    host is off the preload list. *)
Theorem hsts_without_verified_https reqs expectation :
  (responses_https reqs = None
   ∨ ∃ response, responses_https reqs = Some response
                 ∧ verified response = false
                 ∧ is_hsts_preloaded (urlparse_netloc (url response)) = None) →
  let out :=
    strict_transport_security urlparse_netloc is_hsts_preloaded reqs
      expectation in
  Hsts.data out = None
  ∧ Hsts.max_age out = None
  ∧ Hsts.includeSubDomains out = false
  ∧ Hsts.preload out = false
  ∧ Hsts.preloaded out = false
  ∧ Hsts.result out
    = match responses_https reqs with
      | Some _ => "hsts-invalid-cert"
      | None => "hsts-not-implemented-no-https"
      end
  ∧ Hsts.pass out = bool_decide (expectation = Hsts.result out).
Proof.
  drop_env.
  intros [Hnone|(response & Hresp & Hver & Hpre)];
    unfold strict_transport_security.
  - rewrite Hnone. cbn.
    case_bool_decide as Hin; cbn; split_and!; try done.
    + symmetry. apply bool_decide_eq_true. set_solver.
    + symmetry. apply bool_decide_eq_false. set_solver.
  - rewrite Hresp, Hver, Hpre. cbn.
    case_bool_decide as Hin; cbn; split_and!; try done.
    + symmetry. apply bool_decide_eq_true. set_solver.
    + symmetry. apply bool_decide_eq_false. set_solver.
Qed.

(** *** Public-Key-Pins with a header that parses *)


(** *** Cookies that need no downgrade *)

Lemma backfill_httponly c :
  default false (httponly (backfill c)) = httponly_flag c.
Proof.
  unfold backfill, httponly_flag.
  destruct (httponly c) eqn:E; [by rewrite E|done].
Qed.

Lemma backfill_secure c : secure (backfill c) = secure c.
Proof. unfold backfill. by destruct (httponly c). Qed.

Lemma cookie_step_clean hsts jar c :
  secure c = true →
  (is_session c = true → httponly_flag c = true) →
  ∃ jar', cookie_step only_if_worse hsts (jar, None) (backfill c)
          = (jar', None).
Proof.
  intros Hsec Hhttp. unfold cookie_step.
  rewrite backfill_secure, backfill_name, backfill_httponly, Hsec.
  fold (is_session c). cbn [negb andb].
  rewrite !andb_false_r. cbn [andb].
  destruct (is_session c); [rewrite Hhttp by done|]; cbn; eauto.
Qed.

Lemma cookies_fold_clean hsts session jar :
  Forall (λ c, secure c = true
               ∧ (is_session c = true → httponly_flag c = true)) session →
  ∃ jar', foldl (cookie_step only_if_worse hsts) (jar, None)
            (backfill <$> session) = (jar', None).
Proof.
  intros Hall. revert jar.
  induction Hall as [|c session [Hsec Hhttp] _ IH]; intros jar; [by eauto|].
  cbn [fmap list_fmap foldl].
  destruct (cookie_step_clean hsts jar c Hsec Hhttp) as [jar1 ->].
  apply IH.
Qed.

(** X9. When the jar is not empty and every cookie other than __cfduid has
    the Secure flag and, if its name holds login or sess, the HttpOnly flag
    as well, the result is cookies-secure-with-httponly-sessions, and pass
    holds exactly when that is the expectation, whatever [only_if_worse]
    computes. *)
Theorem cookies_all_secure reqs expectation :
  session_cookies reqs ≠ [] →
  Forall (λ c, name c = "__cfduid"
               ∨ (secure c = true
                  ∧ (is_session c = true → httponly_flag c = true)))
    (session_cookies reqs) →
  result (cookies urlparse_netloc is_hsts_preloaded only_if_worse reqs
            expectation).1
  = "cookies-secure-with-httponly-sessions"
  ∧ pass (cookies urlparse_netloc is_hsts_preloaded only_if_worse reqs
            expectation).1
    = bool_decide (expectation = "cookies-secure-with-httponly-sessions").
Proof.
  intros Hne Hall. unfold cookies.
  destruct (session_cookies reqs) as [|c0 jar0] eqn:Hjar; [done|].
  assert (Forall (λ c, secure c = true
                       ∧ (is_session c = true → httponly_flag c = true))
            (del_cookie "__cfduid" (c0 :: jar0))) as Hclean.
  { unfold del_cookie. apply Forall_forall. intros c Hc.
    apply list_elem_of_filter in Hc as [Hname Hc].
    rewrite Forall_forall in Hall. destruct (Hall c Hc); done. }
  match goal with |- context [foldl ?f ?a ?l] =>
    destruct (cookies_fold_clean
                (Hsts.pass
                   (strict_transport_security urlparse_netloc
                      is_hsts_preloaded reqs
                      "hsts-implemented-max-age-at-least-six-months"))
                (del_cookie "__cfduid" (c0 :: jar0)) ∅ Hclean) as [jar' ->]
  end.
  cbn [fst result pass]. split; [done|].
  apply bool_decide_ext. rewrite !elem_of_cons, elem_of_nil.
  split; [intros [?|[?|[]]]; [done|by symmetry] | intros ->; right; by left].
Qed.

(** *** The reported jar *)

Lemma cookie_step_jar hsts st c :
  (cookie_step only_if_worse hsts st c).1 = <[name c := jar_entry c]> st.1.
Proof. by destruct st. Qed.

Lemma cookies_fold_jar hsts session st :
  let jar := (foldl (cookie_step only_if_worse hsts) st session).1 in
  (∀ n e, jar !! n = Some e →
          st.1 !! n = Some e
          ∨ ∃ c, c ∈ session ∧ name c = n ∧ e = jar_entry c)
  ∧ (∀ n, is_Some (st.1 !! n) → is_Some (jar !! n))
  ∧ (∀ c, c ∈ session → is_Some (jar !! name c)).
Proof.
  revert st. induction session as [|c session IH]; intros st; cbn [foldl].
  { split_and!; [by eauto|done|]. by intros c Hc%elem_of_nil. }
  destruct (IH (cookie_step only_if_worse hsts st c)) as (H1 & H2 & H3).
  rewrite cookie_step_jar in H1, H2.
  split_and!.
  - intros n e Hn. destruct (H1 n e Hn) as [Hs|(c' & Hc' & ? & ?)].
    + destruct (decide (name c = n)) as [<-|Hne].
      * rewrite lookup_insert_eq in Hs. injection Hs as <-.
        right. exists c. split; [left|done].
      * rewrite lookup_insert_ne in Hs by done. by left.
    + right. exists c'. split; [by right|done].
  - intros n Hn. apply H2.
    destruct (decide (name c = n)) as [<-|Hne].
    + rewrite lookup_insert_eq. by eauto.
    + by rewrite lookup_insert_ne.
  - intros c' [->|Hc']%elem_of_cons; [|by apply H3].
    apply H2. rewrite lookup_insert_eq. by eauto.
Qed.

(** X10. The jar cookies reports has no entry for __cfduid; each of its
    entries is that of a cookie of the session of that name, with httponly
    as the loop sets it; and unless the jar is reported empty, every cookie
    of the session other than __cfduid has an entry. *)
Theorem cookies_reported_jar reqs expectation d :
  data (cookies urlparse_netloc is_hsts_preloaded only_if_worse reqs
          expectation).1 = Some d →
  d !! "__cfduid" = None
  ∧ (∀ n e, d !! n = Some e →
            ∃ c, c ∈ session_cookies reqs
                 ∧ name c = n
                 ∧ e = jar_entry (backfill c))
  ∧ (d ≠ ∅ →
     ∀ c, c ∈ session_cookies reqs → name c ≠ "__cfduid" →
          is_Some (d !! name c)).
Proof.
  unfold cookies.
  destruct (session_cookies reqs) as [|c0 session0] eqn:Hjar; [done|].
  rewrite <- Hjar. clear Hjar c0 session0.
  set (hsts := Hsts.pass _).
  pose proof (cookies_fold_jar hsts
                (backfill <$> del_cookie "__cfduid" (session_cookies reqs))
                (∅, None)) as Hfold.
  destruct (foldl _ _ _) as [jar r]. cbn [fst] in Hfold.
  destruct Hfold as (H1 & _ & H3). cbn [data fst].
  assert (∀ n e, jar !! n = Some e →
                 ∃ c, c ∈ session_cookies reqs ∧ name c ≠ "__cfduid"
                      ∧ name c = n ∧ e = jar_entry (backfill c)) as Hjar.
  { intros n e Hn. destruct (H1 n e Hn) as [Hs|(c' & Hc' & Hname & ->)].
    { by rewrite lookup_empty in Hs. }
    apply list_elem_of_fmap in Hc' as (c & -> & Hc).
    apply list_elem_of_filter in Hc as [Hne Hc].
    rewrite backfill_name in Hname.
    by exists c. }
  intros [= <-].
  destruct (jar_str_len jar <? 32768).
  - split_and!.
    + destruct (jar !! "__cfduid") as [e|] eqn:He; [|done].
      destruct (Hjar _ _ He) as (c & _ & Hne & Hn & _). done.
    + intros n e Hn. destruct (Hjar n e Hn) as (c & ? & _ & ? & ?). by eauto.
    + intros _ c Hc Hne.
      rewrite <- (backfill_name c). apply H3.
      apply list_elem_of_fmap. exists c. split; [done|].
      by apply list_elem_of_filter.
  - split_and!; [done| |done].
    intros n e Hn. by rewrite lookup_empty in Hn.
Qed.

(** *** Referrer-Policy *)

Lemma rp_classify_implemented data expectation :
  result (rp_classify data expectation) ≠ "referrer-policy-not-implemented".
Proof.
  unfold rp_classify. cbn [result].
  destruct (List.last _ _) as [p|]; [|done].
  destruct (mem p rp_goodness); [done|].
  case_bool_decide; [done|]. by destruct (mem p rp_badness).
Qed.

(** X11. referrer_policy raises, with TypeError, exactly when the header is
    absent and the http-equiv value is the empty string; when it returns,
    the result is referrer-policy-not-implemented exactly when both are
    absent, and then pass is true. *)
Theorem referrer_policy_raises_iff reqs expectation :
  ((∃ e, referrer_policy reqs expectation = Raise e)
   ↔ header (responses_auto reqs) RP = None
     ∧ http_equiv (responses_auto reqs) !! RP = Some EmptyString)
  ∧ (∀ e, referrer_policy reqs expectation = Raise e → e = TypeError)
  ∧ (∀ o, referrer_policy reqs expectation = Ok o →
       (result o = "referrer-policy-not-implemented"
        ↔ header (responses_auto reqs) RP = None
          ∧ http_equiv (responses_auto reqs) !! RP = None)
       ∧ (result o = "referrer-policy-not-implemented" → pass o = true)).
Proof.
  unfold referrer_policy.
  destruct (header (responses_auto reqs) RP) as [h|],
    (http_equiv (responses_auto reqs) !! RP) as [[|c e]|];
    (split; [|split]).
  all: try (split; [by intros [? ?]|by intros [? ?]]).
  all: try (by intros ? [=]).
  all: try (intros o [= <-]; split;
            [split; [intros Hr; by apply rp_classify_implemented in Hr
                    |by intros [? ?]]
            |intros Hr; by apply rp_classify_implemented in Hr]).
  - split; [by eauto|by eauto].
  - intros o [= <-]. by split.
Qed.


(** *** Referrer-Policy: strings *)

Lemma len_nat_take n s : (len_nat (take n s) ≤ n)%nat.
Proof.
  revert s. induction n as [|n IH]; intros [|c s]; simpl; try lia.
  specialize (IH s). lia.
Qed.

Lemma len_slice a b s : len (slice a b s) ≤ Z.of_nat (b - a).
Proof. unfold len, slice. pose proof (len_nat_take (b - a) (drop a s)). lia. Qed.

Lemma take_all n s : (len_nat s ≤ n)%nat → take n s = s.
Proof.
  revert s. induction n as [|n IH]; intros [|c s]; simpl; try done; try lia.
  intros H. f_equal. apply IH. lia.
Qed.

Lemma len_nat_app a b : len_nat (a +:+ b) = (len_nat a + len_nat b)%nat.
Proof. induction a as [|c a IH]; simpl; [done|]. by rewrite IH. Qed.

Lemma lower_app a b : lower (a +:+ b) = lower a +:+ lower b.
Proof. induction a as [|c a IH]; simpl; [done|]. by rewrite IH. Qed.

Lemma split_on_nonempty sep s : split_on sep s ≠ [].
Proof.
  destruct s as [|c s]; simpl; [done|].
  destruct (eqc c sep); [done|]. by destruct (split_on sep s).
Qed.

Lemma split_on_app sep a b :
  split_on sep (a +:+ String sep b) = split_on sep a ++ split_on sep b.
Proof.
  induction a as [|c a IH]; simpl.
  - unfold eqc. by rewrite Ascii.eqb_refl.
  - rewrite IH. destruct (eqc c sep); [done|].
    pose proof (split_on_nonempty sep a).
    by destruct (split_on sep a).
Qed.

Lemma last_app_nonempty {A} (l1 l2 : list A) d d' :
  l2 ≠ [] → List.last (l1 ++ l2) d = List.last l2 d'.
Proof.
  intros H. destruct (exists_last H) as (l & x & ->).
  by rewrite app_assoc, !List.last_last.
Qed.

(** *** Referrer-Policy: the tag comes last *)

Lemma rp_classify_last d1 d2 expectation :
  List.last (Some <$> rp_tokens d1) None
  = List.last (Some <$> rp_tokens d2) None →
  result (rp_classify d1 expectation) = result (rp_classify d2 expectation)
  ∧ pass (rp_classify d1 expectation) = pass (rp_classify d2 expectation).
Proof.
  unfold rp_classify, rp_tokens. cbn [result pass]. by intros ->.
Qed.

Lemma rp_tokens_space s : rp_tokens (String " " s) = rp_tokens s.
Proof.
  unfold rp_tokens. cbn [lower].
  change (lower_char " ") with " "%char. cbn [split_on].
  change (eqc " " ",") with false. cbv iota.
  pose proof (split_on_nonempty "," (lower s)) as Hne.
  destruct (split_on "," (lower s)) as [|w ws]; [done|].
  rewrite !filter_cons.
  change (strip (String " " w)) with (strip w).
  by destruct (decide (strip w ∈ rp_valid)).
Qed.

Lemma rp_tokens_join h e :
  rp_tokens (join ", " [h; e]) = rp_tokens h ++ rp_tokens e.
Proof.
  rewrite <- (rp_tokens_space e). unfold rp_tokens. cbn [join].
  change (h +:+ ", " +:+ e) with (h +:+ String "," (String " " e)).
  rewrite lower_app. cbn [lower].
  change (lower_char ",") with ","%char.
  rewrite split_on_app, filter_app, fmap_app. done.
Qed.

(** X12. When the policy is in both the header and the http-equiv tag, the
    two fit in 256 characters and the tag holds a valid token, the tag
    decides: result and pass are those the tag gives alone. *)
Theorem rp_http_equiv_precedence reqs expectation h e :
  header (responses_auto reqs) RP = Some h →
  http_equiv (responses_auto reqs) !! RP = Some e →
  len h + 2 + len e ≤ 256 →
  rp_tokens e ≠ [] →
  ∃ o, referrer_policy reqs expectation = Ok o
       ∧ data o = Some (join ", " [h; e])
       ∧ result o = result (rp_classify e expectation)
       ∧ pass o = pass (rp_classify e expectation).
Proof.
  intros Hh He Hlen Htok. unfold referrer_policy. rewrite Hh, He.
  assert (slice 0 256 (join ", " [h; e]) = join ", " [h; e]) as ->.
  { unfold slice. cbn [drop]. apply take_all. cbn [join].
    rewrite !len_nat_app. unfold len in Hlen. cbn [len_nat]. lia. }
  eexists. split; [done|]. split; [done|].
  apply rp_classify_last. rewrite rp_tokens_join, fmap_app.
  apply last_app_nonempty. by destruct (rp_tokens e).
Qed.

(** *** X-XSS-Protection and X-Frame-Options *)

(** X13. x_xss_protection never reads its expectation.  It passes exactly
    when the header starts with 1, or the header is absent, empty or starts
    with 0 and content_security_policy passes with its default
    expectation. *)
Theorem xxssp_pass_iff reqs expectation :
  (pass (x_xss_protection urlparse_scheme reqs expectation) = true
   ↔ (∃ rest, header (responses_auto reqs) XXSSP = Some (String "1" rest))
     ∨ ((header (responses_auto reqs) XXSSP = None
         ∨ header (responses_auto reqs) XXSSP = Some EmptyString
         ∨ ∃ rest, header (responses_auto reqs) XXSSP = Some (String "0" rest))
        ∧ pass (content_security_policy urlparse_scheme reqs DEFAULT_CSP)
          = true))
  ∧ ∀ other,
      result (x_xss_protection urlparse_scheme reqs other)
      = result (x_xss_protection urlparse_scheme reqs expectation)
      ∧ pass (x_xss_protection urlparse_scheme reqs other)
        = pass (x_xss_protection urlparse_scheme reqs expectation).
Proof.
  unfold x_xss_protection. fold DEFAULT_CSP.
  generalize (pass (content_security_policy urlparse_scheme reqs DEFAULT_CSP)).
  intros c.
  destruct (header (responses_auto reqs) XXSSP) as [[|first rest]|] eqn:Hh.
  - destruct c; cbn; (split; [split|done]); try done.
    + intros _. right. by eauto.
    + by intros [[? ?]|[_ ?]].
  - unfold eqc.
    destruct (Ascii.eqb_spec first "0") as [->|H0];
      [|destruct (Ascii.eqb_spec first "1") as [->|H1]]; cbn [orb negb].
    + destruct c; cbn; (split; [split|done]); try done.
      * intros _. right. by eauto 6.
      * by intros [[? [=]]|[_ ?]].
    + cbn [andb].
      destruct (bool_decide _), c; cbn; (split; [split|done]); try done.
      all: intros _; left; by eauto.
    + cbn. split; [split; [done|]|done].
      intros [[? [= -> _]]|[[?|[?|[? [= -> _]]]] _]]; done.
  - destruct c; cbn; (split; [split|done]); try done.
    + intros _. right. by eauto.
    + by intros [[? ?]|[_ ?]].
Qed.

(** X14. x_frame_options answers x-frame-options-implemented-via-csp exactly
    when the data content_security_policy reports, under its default
    expectation, has a frame-ancestors directive; the result then passes
    for every expectation. *)
Theorem xfo_via_csp_iff reqs expectation :
  (result (x_frame_options urlparse_scheme reqs expectation)
   = "x-frame-options-implemented-via-csp"
   ↔ ∃ d, data (content_security_policy urlparse_scheme reqs DEFAULT_CSP)
          = Some d
          ∧ is_Some (d !! "frame-ancestors"))
  ∧ (result (x_frame_options urlparse_scheme reqs expectation)
     = "x-frame-options-implemented-via-csp" →
     pass (x_frame_options urlparse_scheme reqs expectation) = true).
Proof.
  unfold x_frame_options. fold DEFAULT_CSP.
  destruct (data (content_security_policy urlparse_scheme reqs DEFAULT_CSP))
    as [d|] eqn:Hd.
  - destruct (decide (is_Some (d !! "frame-ancestors"))) as [Hfa|Hfa].
    + assert (d ≠ ∅) as Hne.
      { intros ->. rewrite lookup_empty in Hfa. by destruct Hfa. }
      rewrite (bool_decide_eq_true_2 _ Hne), (bool_decide_eq_true_2 _ Hfa).
      cbn [andb].
      destruct (header (responses_auto reqs) XFO); cbn;
        (split; [split; [by eauto|done]|done]).
    + rewrite (bool_decide_eq_false_2 _ Hfa), andb_false_r.
      destruct (header (responses_auto reqs) XFO) as [v|]; cbn [result].
      * destruct (mem _ _); [|destruct (startswith _ _)];
          (split; [split; [done|]|done]);
          intros (? & [= <-] & ?); done.
      * split; [split; [done|]|done]. intros (? & [= <-] & ?); done.
  - destruct (header (responses_auto reqs) XFO) as [v|]; cbn [result].
    + destruct (mem _ _); [|destruct (startswith _ _)];
        (split; [split; [done|]|done]); intros (? & [=] & ?).
    + split; [split; [done|]|done]. intros (? & [=] & ?).
Qed.

(** *** What is reported of a header *)

Lemma hsts_loop_data sts out :
  Hsts.data (hsts_loop out sts).1 = Hsts.data out.
Proof.
  drop_env.
  revert out. induction sts as [|p sts IH]; intros out; [done|].
  cbn [hsts_loop].
  destruct (hsts_parameter out p) as [o1|] eqn:Hp; [|done].
  rewrite IH. by destruct (hsts_parameter_flags _ _ _ Hp) as (_ & _ & -> & _).
Qed.

Lemma hsts_parse_data out data :
  Hsts.data (hsts_parse out data) = Hsts.data out.
Proof.
  unfold hsts_parse.
  destruct (contains data ","); [by destruct out|].
  pose proof (hsts_loop_data ((λ i, strip (lower i)) <$> split_on ";" data)
                out) as Hd.
  destruct (hsts_loop _ _) as [o raised]. cbn [fst] in Hd. rewrite <- Hd.
  destruct o as [d0 e0 i0 m0 p0 pl0 pd0 r0].
  destruct raised; [done|].
  destruct (truthy_int _); [|done]. by destruct (_ <? _).
Qed.

Lemma hpkp_parameter_data st p st' :
  hpkp_parameter st p = Some st' → Hpkp.data st'.1 = Hpkp.data st.1.
Proof.
  unfold hpkp_parameter. destruct st as [out pins].
  destruct (startswith p "max-age=").
  { destruct (int _); [|done]. intros [= <-]. by destruct out. }
  destruct (_ && _); [by intros [= <-]|].
  case_bool_decide; intros [= <-]; by destruct out.
Qed.

Lemma hpkp_loop_data pkp st :
  Hpkp.data (hpkp_loop st pkp).1.1 = Hpkp.data st.1.
Proof.
  drop_env.
  revert st. induction pkp as [|p pkp IH]; intros st; [done|].
  cbn [hpkp_loop].
  destruct (hpkp_parameter st p) as [st'|] eqn:Hp; [|done].
  rewrite IH. by apply hpkp_parameter_data in Hp.
Qed.

Lemma hpkp_parse_data out data :
  Hpkp.data (hpkp_parse out data) = Hpkp.data out.
Proof.
  unfold hpkp_parse.
  pose proof (hpkp_loop_data ((λ i, strip (lower i)) <$> split_on ";" data)
                (out, [])) as Hd.
  destruct (hpkp_loop _ _) as [[o pins] raised]. cbn [fst] in Hd.
  rewrite <- Hd.
  destruct o as [d0 e0 i0 m0 np0 ps0 pd0 r0].
  destruct raised; [done|].
  match goal with
  | |- Hpkp.data (if ?b then hpkp_invalid ?o else ?o) = _ =>
      transitivity (Hpkp.data o); [by destruct b, o|]
  end.
  cbn [Hpkp.set_numPins Hpkp.max_age].
  destruct (truthy_int m0); [|done]. by destruct (_ <? _).
Qed.

(** X15. What an analyzer reads off the automatic response is cut to a
    fixed length: 256 characters for X-Content-Type-Options,
    X-XSS-Protection and Referrer-Policy, 1024 for X-Frame-Options. *)
Theorem header_data_truncated reqs expectation d :
  (data (x_content_type_options reqs expectation) = Some d → len d ≤ 256)
  ∧ (data (x_frame_options urlparse_scheme reqs expectation) = Some d →
     len d ≤ 1024)
  ∧ (data (x_xss_protection urlparse_scheme reqs expectation) = Some d →
     len d ≤ 256)
  ∧ (∀ o, referrer_policy reqs expectation = Ok o → data o = Some d →
          len d ≤ 256).
Proof.
  split_and!.
  - unfold x_content_type_options.
    destruct (header _ XCTO); cbn [data]; [|done].
    intros [= <-]. apply (len_slice 0 256).
  - unfold x_frame_options.
    destruct (header _ XFO); cbn [data]; [|done].
    intros [= <-]. apply (len_slice 0 1024).
  - unfold x_xss_protection.
    destruct (header _ XXSSP) as [[|first rest]|].
    + by destruct (_ && _).
    + destruct (negb _); [|destruct (_ && pass _)]; cbn [data];
        intros [= <-]; apply (len_slice 0 256).
    + by destruct (_ && _).
  - intros o. unfold referrer_policy.
    destruct (header _ RP) as [h|], (http_equiv _ !! RP) as [[|c e]|];
      intros [= <-]; cbn [data rp_classify]; try done;
      intros [= <-]; apply (len_slice 0 256).
Qed.

(** X16. Strict-Transport-Security and Public-Key-Pins report the header of
    a verified HTTPS response, cut to 1024 and 2048 characters, whether or
    not it parses and whether or not the host is preloaded; they report
    nothing of an unverified response. *)
Theorem transport_data_from_header reqs expectation :
  let reported (cut : nat) (field : string) :=
    match responses_https reqs with
    | Some response =>
        if verified response
        then slice 0 cut <$> header response field
        else None
    | None => None
    end in
  Hsts.data
    (strict_transport_security urlparse_netloc is_hsts_preloaded reqs
       expectation)
  = reported 1024%nat STS
  ∧ Hpkp.data
      (public_key_pinning urlparse_netloc is_hpkp_preloaded reqs expectation)
    = reported 2048%nat PKP
  ∧ ∀ cut field d, reported cut field = Some d → len d ≤ Z.of_nat cut.
Proof.
  cbv zeta. split_and!.
  - unfold strict_transport_security.
    match goal with
    | |- Hsts.data (if ?b then Hsts.set_pass true ?o else ?o) = _ =>
        transitivity (Hsts.data o); [by destruct b, o|]
    end.
    destruct (responses_https reqs) as [response|]; [|done].
    match goal with
    | |- Hsts.data (match ?p with Some _ => _ | None => ?o end) = _ =>
        transitivity (Hsts.data o); [by destruct p, o|]
    end.
    destruct (verified response); [|done]. cbn [negb].
    destruct (header response STS) as [value|]; [|done].
    by rewrite hsts_parse_data.
  - unfold public_key_pinning.
    destruct (responses_https reqs) as [response|]; [|done].
    match goal with
    | |- Hpkp.data (match ?p with Some _ => _ | None => ?o end) = _ =>
        transitivity (Hpkp.data o); [by destruct p, o|]
    end.
    destruct (verified response); [|done]. cbn [negb].
    destruct (header response PKP) as [value|]; [|done].
    by rewrite hpkp_parse_data.
  - intros cut field d.
    destruct (responses_https reqs) as [response|]; [|done].
    destruct (verified response); [|done].
    destruct (header response field) as [value|]; [|done].
    intros [= <-]. pose proof (len_slice 0 cut value) as Hlen.
    by rewrite Nat.sub_0_r in Hlen.
Qed.

(** *** The result codes *)

Lemma hsts_parse_result out data :
  Hsts.result (hsts_parse out data)
  ∈ ["hsts-header-invalid";
     "hsts-implemented-max-age-less-than-six-months";
     "hsts-implemented-max-age-at-least-six-months"].
Proof.
  drop_env. unfold hsts_parse.
  destruct (contains data ","); [destruct out; set_solver|].
  destruct (hsts_loop _ _) as [o raised].
  destruct o as [d0 e0 i0 m0 p0 pl0 pd0 r0].
  destruct raised; [set_solver|].
  destruct (truthy_int _); [|set_solver].
  destruct (_ <? _); set_solver.
Qed.

Lemma hpkp_parse_result out data :
  Hpkp.result (hpkp_parse out data)
  ∈ ["hpkp-header-invalid";
     "hpkp-implemented-max-age-less-than-fifteen-days";
     "hpkp-implemented-max-age-at-least-fifteen-days"].
Proof.
  drop_env. unfold hpkp_parse.
  destruct (hpkp_loop _ _) as [[o pins] raised].
  destruct o as [d0 e0 i0 m0 np0 ps0 pd0 r0].
  destruct raised; [set_solver|].
  cbn [Hpkp.set_numPins Hpkp.max_age].
  destruct (truthy_int m0) eqn:Ht.
  - destruct (_ <? FIFTEEN_DAYS); (destruct (negb _ || _); cbn; set_solver).
  - cbn [Hpkp.max_age Hpkp.set_numPins]. rewrite Ht. cbn. set_solver.
Qed.

(** X17. The result of each header analyzer is one of a fixed list of codes,
    whatever the headers and the expectation. *)
Theorem header_results_range reqs expectation :
  result (x_content_type_options reqs expectation)
  ∈ ["x-content-type-options-nosniff";
     "x-content-type-options-header-invalid";
     "x-content-type-options-not-implemented"]
  ∧ result (x_frame_options urlparse_scheme reqs expectation)
    ∈ ["x-frame-options-sameorigin-or-deny";
       "x-frame-options-allow-from-origin";
       "x-frame-options-header-invalid";
       "x-frame-options-not-implemented";
       "x-frame-options-implemented-via-csp"]
  ∧ result (x_xss_protection urlparse_scheme reqs expectation)
    ∈ ["x-xss-protection-enabled-mode-block";
       "x-xss-protection-enabled";
       "x-xss-protection-disabled";
       "x-xss-protection-not-implemented";
       "x-xss-protection-header-invalid";
       "x-xss-protection-not-needed-due-to-csp"]
  ∧ (∀ o, referrer_policy reqs expectation = Ok o →
          result o
          ∈ ["referrer-policy-private";
             "referrer-policy-no-referrer-when-downgrade";
             "referrer-policy-unsafe";
             "referrer-policy-header-invalid";
             "referrer-policy-not-implemented"])
  ∧ Hsts.result
      (strict_transport_security urlparse_netloc is_hsts_preloaded reqs
         expectation)
    ∈ ["hsts-not-implemented";
       "hsts-not-implemented-no-https";
       "hsts-invalid-cert";
       "hsts-header-invalid";
       "hsts-implemented-max-age-less-than-six-months";
       "hsts-implemented-max-age-at-least-six-months";
       "hsts-preloaded"]
  ∧ Hpkp.result
      (public_key_pinning urlparse_netloc is_hpkp_preloaded reqs expectation)
    ∈ ["hpkp-not-implemented";
       "hpkp-not-implemented-no-https";
       "hpkp-invalid-cert";
       "hpkp-header-invalid";
       "hpkp-implemented-max-age-less-than-fifteen-days";
       "hpkp-implemented-max-age-at-least-fifteen-days";
       "hpkp-preloaded"].
Proof.
  clear only_if_worse. split_and!.
  - unfold x_content_type_options.
    destruct (header _ XCTO); cbn [result]; [case_bool_decide|]; set_solver.
  - unfold x_frame_options.
    destruct (header _ XFO);
      (destruct (data (content_security_policy _ _ _)) as [d|];
       [destruct (_ && _); [cbn [result]; set_solver|]|]);
      cbn [result];
      try (destruct (mem _ _); [|destruct (startswith _ _)]); set_solver.
  - unfold x_xss_protection.
    destruct (header _ XXSSP) as [[|first rest]|].
    + destruct (_ && _); cbn [result]; set_solver.
    + destruct (negb _); [cbn [result]; set_solver|].
      destruct (eqc first "1"); cbn [andb];
        [destruct (bool_decide _)|];
        (destruct (_ && pass _); cbn [result]; set_solver).
    + destruct (_ && _); cbn [result]; set_solver.
  - intros o Ho.
    assert (∀ data, result (rp_classify data expectation)
                    ∈ ["referrer-policy-private";
                       "referrer-policy-no-referrer-when-downgrade";
                       "referrer-policy-unsafe";
                       "referrer-policy-header-invalid";
                       "referrer-policy-not-implemented"]) as Hrp.
    { intros data. unfold rp_classify. cbn [result].
      destruct (List.last _ _) as [p|]; [|set_solver].
      destruct (mem p rp_goodness); [set_solver|].
      case_bool_decide; [set_solver|].
      destruct (mem p rp_badness); set_solver. }
    revert Ho. unfold referrer_policy.
    destruct (header _ RP) as [h|], (http_equiv _ !! RP) as [[|c e]|];
      intros [= <-]; try apply Hrp. cbn [result]. set_solver.
  - unfold strict_transport_security.
    match goal with
    | |- Hsts.result (if ?b then Hsts.set_pass true ?o else ?o) ∈ ?l =>
        cut (Hsts.result o ∈ l); [by destruct b, o|]
    end.
    destruct (responses_https reqs) as [response|]; [|cbn; set_solver].
    destruct (is_hsts_preloaded _);
      [match goal with
       | |- Hsts.result
              (Hsts.set_preloaded _
                 (Hsts.set_includeSubDomains _
                    (Hsts.set_result _ ?o))) ∈ _ =>
           destruct o; cbn; set_solver
       end|].
    destruct (verified response); cbn [negb]; [|cbn; set_solver].
    destruct (header response STS) as [value|]; [|cbn; set_solver].
    pose proof (hsts_parse_result
                  (Hsts.set_data (Some (slice 0 1024 value))
                     (Hsts.Output None expectation false None false false
                        false "hsts-not-implemented"))
                  (slice 0 1024 value)) as Hp.
    set_solver.
  - unfold public_key_pinning.
    destruct (responses_https reqs) as [response|]; [|cbn; set_solver].
    destruct (is_hpkp_preloaded _);
      [match goal with
       | |- Hpkp.result
              (Hpkp.set_preloaded _
                 (Hpkp.set_includeSubDomains _
                    (Hpkp.set_result _ ?o))) ∈ _ =>
           destruct o; cbn; set_solver
       end|].
    destruct (verified response); cbn [negb]; [|cbn; set_solver].
    destruct (header response PKP) as [value|]; [|cbn; set_solver].
    pose proof (hpkp_parse_result
                  (Hpkp.set_data (Some (slice 0 2048 value))
                     (Hpkp.Output None expectation false None None true false
                        "hpkp-not-implemented"))
                  (slice 0 2048 value)) as Hp.
    set_solver.
Qed.

End Properties.

(** ** The statements on concrete inputs *)

Definition csp_at := content_security_policy url_scheme.
Definition hsts_at := strict_transport_security url_netloc.
Definition hpkp_at := public_key_pinning url_netloc.
Definition cookies_at := cookies url_netloc no_preload only_if_worse_model.

(** C1. On a policy whose default-src holds a nonce and 'unsafe-inline' and
    that has neither script-src nor style-src, script_src and style_src are
    the same set object: removing 'unsafe-inline' from script_src removes it
    from style_src too.  The analyzer answers csp-implemented-with-no-unsafe,
    where the described chain gives
    csp-implemented-with-unsafe-inline-in-style-src-only. *)
Theorem shared_default_src_diverges :
  result (csp_at reqs_shared_default DEFAULT_CSP)
  = "csp-implemented-with-no-unsafe"
  ∧ described_chain (url_scheme SITE)
      <$> merged_policy (responses_auto reqs_shared_default)
    = Some "csp-implemented-with-unsafe-inline-in-style-src-only".
Proof. split; vm_compute; reflexivity. Qed.

(** C2. A segment of blanks between two semicolons makes [__parse_csp]
    raise IndexError, on a string that is neither short, nor blank, nor
    repeats a directive; the analyzer reports csp-header-invalid with pass
    false. *)
Theorem blank_segment_raises :
  __parse_csp blank_segment = Raise IndexError
  ∧ ¬ too_short_or_blank blank_segment
  ∧ ¬ repeats_directive blank_segment
  ∧ result (csp_at reqs_blank_segment DEFAULT_CSP) = "csp-header-invalid"
  ∧ pass (csp_at reqs_blank_segment DEFAULT_CSP) = false.
Proof.
  split_and!; try (vm_compute; reflexivity).
  - intros [H|H]; vm_compute in H; discriminate.
  - intros H. apply H.
    apply (bool_decide_unpack (NoDup (directive_names blank_segment))).
    vm_compute. exact I.
Qed.

Definition policy_self : policy := {[ "script-src" := ["'self'"] ]}.
Definition policy_inline : policy := {[ "script-src" := ["'unsafe-inline'"] ]}.

Lemma merge_is_union_witness :
  ∃ m, merge (Some policy_self) (Some policy_inline) = Some m
       ∧ ∀ k,
           (is_Some (m !! k)
            ↔ is_Some (policy_self !! k) ∨ is_Some (policy_inline !! k))
           ∧ (∀ x, x ∈ default [] (m !! k)
                   ↔ x ∈ default [] (policy_self !! k)
                     ∨ x ∈ default [] (policy_inline !! k))
           ∧ (policy_self !! k = None → m !! k = policy_inline !! k)
           ∧ (policy_inline !! k = None → m !! k = policy_self !! k).
Proof.
  apply (merge_is_union (Some policy_self) (Some policy_inline)).
  vm_compute. reflexivity.
Defined.



Lemma preloaded_host_overrides_witness :
  Hsts.result (hsts_at example_preload reqs_max_age_zero DEFAULT_CSP)
  = "hsts-preloaded"
  ∧ Hpkp.result (hpkp_at example_preload reqs_max_age_zero DEFAULT_CSP)
    = "hpkp-preloaded".
Proof.
  destruct (preloaded_host_overrides url_netloc example_preload
              example_preload reqs_max_age_zero DEFAULT_CSP
              (response_of [(STS, "max-age=0")] [] SITE true) eq_refl)
    as [Hs Hp].
  split.
  - apply (Hs {| includeSubDomains := true;
                 includeSubDomainsForPinning := true |} eq_refl).
  - apply (Hp {| includeSubDomains := true;
                 includeSubDomainsForPinning := true |} eq_refl).
Defined.

(** C6. On a jar that holds the tracking cookie only, the jar is empty once
    the cookie is removed, but the emptiness test has run before the
    removal: the analyzer answers cookies-secure-with-httponly-sessions, and
    with cookies-not-found for expectation pass is false.  Run again on the
    bundle as it leaves it, the analyzer answers cookies-not-found with
    pass true. *)
Theorem cookies_tracking_only_found :
  del_cookie "__cfduid" (session_cookies reqs_tracking_only) = []
  ∧ result (cookies_at reqs_tracking_only "cookies-not-found").1
    = "cookies-secure-with-httponly-sessions"
  ∧ pass (cookies_at reqs_tracking_only "cookies-not-found").1 = false
  ∧ result
      (cookies_at (cookies_at reqs_tracking_only "cookies-not-found").2
         "cookies-not-found").1
    = "cookies-not-found"
  ∧ pass
      (cookies_at (cookies_at reqs_tracking_only "cookies-not-found").2
         "cookies-not-found").1
    = true.
Proof. split_and!; vm_compute; reflexivity. Qed.

(** C7 as it is worded fails on the header value 2: the policy analyzer
    passes and x_xss_protection returns x-xss-protection-header-invalid
    with pass false. *)
Lemma xxssp_invalid_not_compensated :
  pass (csp_at reqs_bad_xxssp DEFAULT_CSP) = true
  ∧ pass (x_xss_protection url_scheme reqs_bad_xxssp
            "x-xss-protection-1-mode-block") = false
  ∧ result (x_xss_protection url_scheme reqs_bad_xxssp
              "x-xss-protection-1-mode-block")
    = "x-xss-protection-header-invalid".
Proof. split_and!; vm_compute; reflexivity. Qed.

Lemma xxssp_csp_fallback_witness :
  (pass (x_xss_protection url_scheme reqs_xxssp_off
           "x-xss-protection-1-mode-block") = true
   ∧ result (x_xss_protection url_scheme reqs_xxssp_off
               "x-xss-protection-1-mode-block")
     = "x-xss-protection-not-needed-due-to-csp")
  ∧ (pass (x_xss_protection url_scheme reqs_bad_xxssp
             "x-xss-protection-1-mode-block") = false
     ∧ result (x_xss_protection url_scheme reqs_bad_xxssp
                 "x-xss-protection-1-mode-block")
       = "x-xss-protection-header-invalid").
Proof.
  split.
  - apply (xxssp_csp_fallback url_scheme reqs_xxssp_off
             "x-xss-protection-1-mode-block").
    + right. right. exists EmptyString. vm_compute. reflexivity.
    + vm_compute. reflexivity.
  - apply (proj2 (xxssp_csp_fallback url_scheme reqs_bad_xxssp
                    "x-xss-protection-1-mode-block") "2"%char EmptyString).
    + vm_compute. reflexivity.
    + discriminate.
    + discriminate.
Defined.

(** C8 as it is worded fails on a policy that takes 32768 characters or
    more to print: its data is emptied, and x_frame_options does not see
    the frame-ancestors directive of the merged policy. *)
Lemma xfo_long_policy_not_via_csp :
  has_directive (responses_auto reqs_long_policy) "frame-ancestors" = true
  ∧ result (x_frame_options url_scheme reqs_long_policy
              "x-frame-options-sameorigin-or-deny")
    = "x-frame-options-not-implemented"
  ∧ pass (x_frame_options url_scheme reqs_long_policy
            "x-frame-options-sameorigin-or-deny") = false.
Proof. split_and!; vm_compute; reflexivity. Qed.

Lemma xfo_implemented_via_csp_witness :
  result (x_frame_options url_scheme reqs_frame_ancestors
            "x-frame-options-sameorigin-or-deny")
  = "x-frame-options-implemented-via-csp"
  ∧ pass (x_frame_options url_scheme reqs_frame_ancestors
            "x-frame-options-sameorigin-or-deny") = true.
Proof.
  apply (xfo_implemented_via_csp url_scheme reqs_frame_ancestors
           "x-frame-options-sameorigin-or-deny"
           {[ "frame-ancestors" := ["'none'"] ]}).
  - vm_compute. reflexivity.
  - vm_compute. eauto.
  - vm_compute. reflexivity.
Defined.

(** C9 as it is worded fails on a jar that holds the tracking cookie only:
    cookies empties the jar, and a second run on the same bundle returns
    cookies-not-found where the first returned
    cookies-secure-with-httponly-sessions. *)
Lemma cookies_changes_the_jar :
  session_cookies reqs_tracking_only = [cfduid]
  ∧ session_cookies
      (cookies_at reqs_tracking_only "cookies-secure-with-httponly-sessions").2
    = []
  ∧ result
      (cookies_at reqs_tracking_only "cookies-secure-with-httponly-sessions").1
    = "cookies-secure-with-httponly-sessions"
  ∧ result
      (cookies_at
         (cookies_at reqs_tracking_only
            "cookies-secure-with-httponly-sessions").2
         "cookies-secure-with-httponly-sessions").1
    = "cookies-not-found".
Proof. split_and!; vm_compute; reflexivity. Qed.

Lemma hpkp_pass_false_iff_witness :
  (Hpkp.pass (hpkp_at no_preload reqs_one_pin "hpkp-not-implemented") = false
   ∧ Hpkp.result (hpkp_at no_preload reqs_one_pin "hpkp-not-implemented")
     = "hpkp-header-invalid")
  ∧ (Hpkp.pass (hpkp_at no_preload reqs_pins_separator "hpkp-not-implemented")
     = false
     ∧ Hpkp.result
         (hpkp_at no_preload reqs_pins_separator "hpkp-not-implemented")
       = "hpkp-header-invalid")
  ∧ Hpkp.pass (hpkp_at no_preload reqs_two_pins "hpkp-not-implemented")
    = true.
Proof.
  split; [|split].
  - apply (proj2 (hpkp_pass_false_iff url_netloc no_preload reqs_one_pin
                    "hpkp-not-implemented")
             (response_of [(PKP, "max-age=5184000; pin-sha256=abc")] [] SITE
                true)
             "max-age=5184000; pin-sha256=abc");
      try (vm_compute; reflexivity).
    right. right. right. intros (p & q & Hp & Hq & Hpq).
    vm_compute in Hp, Hq.
    apply list_elem_of_singleton in Hp, Hq. congruence.
  - apply (proj2 (hpkp_pass_false_iff url_netloc no_preload
                    reqs_pins_separator "hpkp-not-implemented")
             (response_of [(PKP, PINS_SEPARATOR)] [] SITE true)
             PINS_SEPARATOR);
      try (vm_compute; reflexivity).
    right. left. vm_compute. left.
  - apply not_false_iff_true. intros Hpass.
    apply (proj1 (hpkp_pass_false_iff url_netloc no_preload reqs_two_pins
                    "hpkp-not-implemented")) in Hpass
      as (response & value & Hresp & _ & Hhdr & Hfails).
    vm_compute in Hresp. injection Hresp as <-.
    vm_compute in Hhdr. injection Hhdr as <-.
    destruct Hfails as [H|[H|[H|H]]].
    + vm_compute in H. discriminate.
    + vm_compute in H. apply list_elem_of_singleton in H. discriminate.
    + vm_compute in H. discriminate.
    + apply H. exists "pin-sha256=abc", "pin-sha256=def".
      split_and!; [| |discriminate];
        apply (bool_decide_unpack _); vm_compute; exact I.
Defined.

(** ** The further properties on concrete inputs *)

Lemma parse_csp_lookup_witness :
  policy_none !! "default-src"
  = (entry_values
       <$> List.find (λ entry, bool_decide (head entry = Some "default-src"))
             (entries_of (clean "default-src 'none'")))
  ∧ policy_wf policy_none
  ∧ (∀ k v, policy_none !! k = Some v → NoDup v).
Proof.
  apply (parse_csp_lookup "default-src 'none'" policy_none "default-src").
  vm_compute. reflexivity.
Defined.

Lemma csp_follows_described_chain_witness :
  result (csp_at reqs_none DEFAULT_CSP)
  = described_chain (url_scheme (url (responses_auto reqs_none))) policy_none.
Proof.
  apply (csp_follows_described_chain url_scheme reqs_none DEFAULT_CSP
           policy_none).
  - vm_compute. reflexivity.
  - intros (_ & _ & d & Hd & Hn & _). unfold policy_none in Hd.
    apply lookup_singleton_Some in Hd as [_ <-]. vm_compute in Hn.
    discriminate.
Defined.

Lemma csp_reported_policy_witness :
  ∃ d reported,
    reported
    = (classify url_scheme (url (responses_auto reqs_none)) policy_none).2
    ∧ data (csp_at reqs_none DEFAULT_CSP) = Some d
    ∧ (32768 ≤ str_len reported → d = ∅)
    ∧ (str_len reported < 32768 →
       ∀ k,
         (is_Some (d !! k) ↔ is_Some (policy_none !! k))
         ∧ ∀ x,
             (x ∈ default [] (d !! k) → x ∈ default [] (policy_none !! k))
             ∧ (x ∈ default [] (policy_none !! k) → x ≠ UNSAFE_INLINE →
                x ∈ default [] (d !! k))).
Proof.
  apply (csp_reported_policy url_scheme reqs_none DEFAULT_CSP policy_none).
  vm_compute. reflexivity.
Defined.


Lemma hsts_without_verified_https_witness :
  Hsts.data (hsts_at no_preload reqs_plain_http "hsts-not-implemented-no-https")
  = None
  ∧ Hsts.max_age
      (hsts_at no_preload reqs_plain_http "hsts-not-implemented-no-https")
    = None
  ∧ Hsts.includeSubDomains
      (hsts_at no_preload reqs_plain_http "hsts-not-implemented-no-https")
    = false
  ∧ Hsts.preload
      (hsts_at no_preload reqs_plain_http "hsts-not-implemented-no-https")
    = false
  ∧ Hsts.preloaded
      (hsts_at no_preload reqs_plain_http "hsts-not-implemented-no-https")
    = false
  ∧ Hsts.result
      (hsts_at no_preload reqs_plain_http "hsts-not-implemented-no-https")
    = match responses_https reqs_plain_http with
      | Some _ => "hsts-invalid-cert"
      | None => "hsts-not-implemented-no-https"
      end
  ∧ Hsts.pass
      (hsts_at no_preload reqs_plain_http "hsts-not-implemented-no-https")
    = bool_decide
        ("hsts-not-implemented-no-https"
         = Hsts.result
             (hsts_at no_preload reqs_plain_http
                "hsts-not-implemented-no-https")).
Proof.
  apply (hsts_without_verified_https url_netloc no_preload reqs_plain_http
           "hsts-not-implemented-no-https").
  left. vm_compute. reflexivity.
Defined.


Lemma cookies_all_secure_witness :
  result (cookies_at reqs_session_cookie
            "cookies-secure-with-httponly-sessions").1
  = "cookies-secure-with-httponly-sessions"
  ∧ pass (cookies_at reqs_session_cookie
            "cookies-secure-with-httponly-sessions").1
    = bool_decide ("cookies-secure-with-httponly-sessions"
                   = "cookies-secure-with-httponly-sessions").
Proof.
  apply (cookies_all_secure url_netloc no_preload only_if_worse_model
           reqs_session_cookie "cookies-secure-with-httponly-sessions").
  - discriminate.
  - apply Forall_cons. split; [|apply Forall_nil_2].
    right. split; [reflexivity|]. intros _. vm_compute. reflexivity.
Defined.

Lemma cookies_reported_jar_witness :
  ({[ "sessionid" := jar_entry (backfill sessionid) ]}
     : gmap string Jar.entry) !! "__cfduid" = None
  ∧ (∀ n e,
       ({[ "sessionid" := jar_entry (backfill sessionid) ]}
          : gmap string Jar.entry) !! n = Some e →
       ∃ c, c ∈ session_cookies reqs_mixed_jar
            ∧ name c = n
            ∧ e = jar_entry (backfill c))
  ∧ (({[ "sessionid" := jar_entry (backfill sessionid) ]}
        : gmap string Jar.entry) ≠ ∅ →
     ∀ c, c ∈ session_cookies reqs_mixed_jar → name c ≠ "__cfduid" →
          is_Some
            (({[ "sessionid" := jar_entry (backfill sessionid) ]}
                : gmap string Jar.entry) !! name c)).
Proof.
  apply (cookies_reported_jar url_netloc no_preload only_if_worse_model
           reqs_mixed_jar "cookies-secure-with-httponly-sessions").
  vm_compute. reflexivity.
Defined.

Lemma rp_http_equiv_precedence_witness :
  ∃ o, referrer_policy reqs_both_referrers "referrer-policy-private" = Ok o
       ∧ data o = Some (join ", " ["unsafe-url"; "no-referrer"])
       ∧ result o
         = result (rp_classify "no-referrer" "referrer-policy-private")
       ∧ pass o = pass (rp_classify "no-referrer" "referrer-policy-private").
Proof.
  apply (rp_http_equiv_precedence reqs_both_referrers
           "referrer-policy-private" "unsafe-url" "no-referrer").
  - vm_compute. reflexivity.
  - vm_compute. reflexivity.
  - vm_compute. discriminate.
  - vm_compute. discriminate.
Defined.
